(** * openai-streams: the backoff executor and the event framer

    A shallow embedding of [src/lib/backoff.ts] (fetchWithBackoff) and of
    [src/lib/streaming/streams.ts] (bufferIsDone, closeController,
    EventStream), with the error taxonomy of [src/lib/errors.ts].

    Conventions of the embedding.
    - A JavaScript string is the list of its UTF-16 code units.
    - A value produced by [JSON.parse] or [response.json()] is a [json] tree.
    - Exceptions are values of [exn]; a function that may throw returns a sum
      or a completion record.
    - The injected collaborators (fetch, the hooks, JSON.parse, the reader of
      the output stream) are inputs of the model. *)

From Stdlib Require Import String Ascii List ZArith NArith QArith Qabs Bool Lia.
Import ListNotations.

(* ================================================================== *)
(** ** JavaScript strings *)

Module JS.

Definition code_unit := N.
Definition jsstring := list code_unit.

(** The code units of an ASCII literal. *)
Definition units (s : string) : jsstring :=
  map N_of_ascii (list_ascii_of_string s).

(** Literals of wire text: in the argument an apostrophe stands for the
    double quote (code unit 34) and a dollar sign for a line feed (code unit
    10); every other character stands for itself. *)
Definition wire (s : string) : jsstring :=
  map (fun u => if N.eqb u 39 then 34%N else if N.eqb u 36 then 10%N else u)
      (units s).

Fixpoint eqb (a b : jsstring) : bool :=
  match a, b with
  | [], [] => true
  | x :: a', y :: b' => N.eqb x y && eqb a' b'
  | _, _ => false
  end.

(** [s.startsWith(p)] *)
Fixpoint startsWith (p s : jsstring) : bool :=
  match p, s with
  | [], _ => true
  | x :: p', y :: s' => N.eqb x y && startsWith p' s'
  | _ :: _, [] => false
  end.

(** [s.indexOf(p)]; [None] is the -1 of JavaScript. *)
Fixpoint indexOf (p s : jsstring) : option nat :=
  if startsWith p s then Some O
  else match s with
       | [] => None
       | _ :: s' => option_map S (indexOf p s')
       end.

(** [s.slice(from, to)] and [s.slice(from)] for non-negative indices: an
    empty result when [to <= from]. *)
Definition slice (from to : nat) (s : jsstring) : jsstring :=
  firstn (to - from) (skipn from s).

Definition sliceFrom (from : nat) (s : jsstring) : jsstring := skipn from s.

(** WhiteSpace and LineTerminator code units, the ones [trim] removes. *)
Definition isWhiteSpace (u : code_unit) : bool :=
  ((9 <=? u) && (u <=? 13) || N.eqb u 32 || N.eqb u 160 || N.eqb u 5760
   || (8192 <=? u) && (u <=? 8202) || N.eqb u 8232 || N.eqb u 8233
   || N.eqb u 8239 || N.eqb u 8287 || N.eqb u 12288 || N.eqb u 65279)%N.

Fixpoint trimStart (s : jsstring) : jsstring :=
  match s with
  | u :: s' => if isWhiteSpace u then trimStart s' else s
  | [] => []
  end.

Definition trim (s : jsstring) : jsstring :=
  rev (trimStart (rev (trimStart s))).

End JS.

Import JS.

(* ================================================================== *)
(** ** JSON values as the code inspects them *)

#[local] Unset Elimination Schemes.

Inductive json : Type :=
| JNull
| JBool (b : bool)
| JNum (q : Q)
| JStr (s : jsstring)
| JArr (elements : list json)
| JObj (members : list (jsstring * json)).

#[local] Set Elimination Schemes.

(** A JavaScript value read out of a JSON tree: [None] is [undefined]. *)
Definition value := option json.

Fixpoint assoc (k : jsstring) (members : list (jsstring * json)) : value :=
  match members with
  | [] => None
  | (k', v) :: rest => if JS.eqb k k' then Some v else assoc k rest
  end.

(** [v?.k] for the property names the code reads ([type], [error], [code],
    [choices], [finish_reason], [message]): none of them is a built-in
    property of an array, a string, a number or a boolean, nor of
    [Object.prototype], so only an object's own members answer. The first
    binding of a key in [members] is the member's value. *)
Definition prop (v : json) (k : jsstring) : value :=
  match v with
  | JObj members => assoc k members
  | _ => None
  end.

(** [x?.k] where [x] itself may be [undefined] or [null]. *)
Definition prop_opt (x : value) (k : jsstring) : value :=
  match x with
  | Some v => prop v k
  | None => None
  end.

(** [x === "lit"] *)
Definition is_string (x : value) (lit : jsstring) : bool :=
  match x with
  | Some (JStr s) => JS.eqb s lit
  | _ => false
  end.

(** The double nearest to the exact value [q] of a number literal is zero
    exactly when [|q| <= 2^-1075]. *)
Definition number_is_zero (q : Q) : bool :=
  Qle_bool (Qabs q) (1 # (2 ^ 1075)).

(** ToBoolean *)
Definition truthy (x : value) : bool :=
  match x with
  | None => false
  | Some JNull => false
  | Some (JBool b) => b
  | Some (JNum q) => negb (number_is_zero q)
  | Some (JStr s) => negb (JS.eqb s [])
  | Some (JArr _) => true
  | Some (JObj _) => true
  end.

(** [typeof v === "object"]: [typeof null] is ["object"] too. *)
Definition typeof_object (v : json) : bool :=
  match v with
  | JNull | JArr _ | JObj _ => true
  | JBool _ | JNum _ | JStr _ => false
  end.

(* ================================================================== *)
(** ** Exceptions and the error taxonomy (errors.ts) *)

Inductive OpenAIErrorType := MAX_TOKENS | UNKNOWN.

Definition OpenAIErrors (type : OpenAIErrorType) : jsstring :=
  match type with
  | MAX_TOKENS => units "Maximum number of tokens reached."
  | UNKNOWN => units "An unknown error occurred."
  end.

(** The [TypeError]s the runtime raises on the paths of this code. *)
Inductive fault :=
| ReadOfNull (property : jsstring)   (* reading a property of null *)
| NotCallable (property : jsstring)  (* calling a member that is no function *)
| NotIterable                        (* for...of over a non-iterable *)
| InvalidState.                      (* close/enqueue on a closed or errored controller *)

Inductive exn :=
| Error (message : jsstring)         (* any thrown object with this [message] *)
| TypeError (what : fault)
| OpenAIError (type : OpenAIErrorType).

(** [error.message]; the text of a runtime [TypeError] is engine-defined
    and is none of the texts the code compares with. *)
Definition message (e : exn) : option jsstring :=
  match e with
  | Error m => Some m
  | TypeError _ => None
  | OpenAIError type => Some (OpenAIErrors type)
  end.

Definition message_is (e : exn) (m : jsstring) : bool :=
  match message e with
  | Some m' => JS.eqb m' m
  | None => false
  end.

(** [OpenAIError.toJSON()] *)
Definition toJSON (type : OpenAIErrorType) : json :=
  JObj [(units "type", JStr (units match type with
                                   | MAX_TOKENS => "MAX_TOKENS"
                                   | UNKNOWN => "UNKNOWN"
                                   end));
        (units "message", JStr (OpenAIErrors type))].

(* ================================================================== *)
(** ** backoff.ts *)

Module Backoff.

(** What [response.json()] settles to. *)
Inductive body :=
| Parsed (data : json)
| Unparsable (e : exn).

Record Response := { ok : bool; json_ : body }.

(** What one call of the injected [fetch] settles to. *)
Inductive settled :=
| Resolved (response : Response)
| Rejected (e : exn).

(** The injected [fetch]: its result at the k-th call (k calls made before);
    [input] and [init] are handed to it unchanged at every call. *)
Definition Fetch := nat -> settled.

(** [onRateLimitReached({retries, delay})]: returns ([None]) or throws. *)
Definition Hook := Z -> Z -> option exn.

(** [interface BackoffOptions]: every member is optional. The retry limit
    and the delay in milliseconds are integers; doubling one is exact. *)
Record BackoffOptions := {
  maxRetries : option Z;
  delay : option Z;
  onRateLimitReached : option Hook
}.

(** The observable effects of a run, in order. *)
Inductive effect :=
| Fetched                         (* fetch(input, init) *)
| Logged (delay : Z)              (* console.log("Rate limit reached. Retrying in <delay>ms") *)
| Notified (retries delay : Z)    (* onRateLimitReached({retries, delay}) *)
| Slept (delay : Z).              (* setTimeout(resolve, delay) *)

Inductive outcome :=
| Returned (response : Response)
| Thrown (e : exn).

Definition RATE_LIMIT_REACHED : jsstring := units "RATE_LIMIT_REACHED".

Section Loop.

Variable fetch : Fetch.
Variable maxRetries_ : Z.
Variable onRateLimitReached_ : Hook.

(** The body of the [try] block: the response it returns, or what it throws. *)
Definition attempt (calls : nat) : exn + Response :=
  match fetch calls with
  | Rejected e => inl e
  | Resolved response =>
    if negb (ok response) then
      match json_ response with
      | Unparsable e => inl e
      | Parsed errorData =>
        match errorData with
        | JNull => inl (TypeError (ReadOfNull (units "type")))
        | _ =>
          if is_string (prop errorData (units "type")) RATE_LIMIT_REACHED
             || is_string (prop_opt (prop errorData (units "error")) (units "code"))
                          (units "429")
          then inl (Error RATE_LIMIT_REACHED)
          else inr response
        end
      end
    else inr response
  end.

(** [for (let i = 0; i <= maxRetries; i++) { try ... catch ... }] followed by
    the final [throw]; [fuel] bounds the iterations, [calls] counts the calls
    of [fetch] made so far. *)
Fixpoint loop (fuel : nat) (i delay_ : Z) (calls : nat)
  : option (outcome * list effect) :=
  match fuel with
  | O => None
  | S fuel' =>
    if (i <=? maxRetries_)%Z then
      match attempt calls with
      | inr response => Some (Returned response, [Fetched])
      | inl error =>
        if message_is error RATE_LIMIT_REACHED && (i <? maxRetries_)%Z then
          match onRateLimitReached_ i delay_ with
          | Some e => Some (Thrown e, [Fetched; Logged delay_; Notified i delay_])
          | None =>
            match loop fuel' (i + 1)%Z (delay_ * 2)%Z (S calls) with
            | Some (o, t) =>
              Some (o, Fetched :: Logged delay_ :: Notified i delay_
                         :: Slept delay_ :: t)
            | None => None
            end
          end
        else Some (Thrown error, [Fetched])
      end
    else Some (Thrown (Error (units "Max retries reached.")), [])
  end.

End Loop.

(** The destructuring defaults:
    [const { maxRetries = 7, onRateLimitReached = () => null } = backoffOptions;
     let { delay = 500 } = backoffOptions;] *)
Definition maxRetries_of (backoffOptions : BackoffOptions) : Z :=
  match maxRetries backoffOptions with Some n => n | None => 7%Z end.

Definition onRateLimitReached_of (backoffOptions : BackoffOptions) : Hook :=
  match onRateLimitReached backoffOptions with
  | Some h => h
  | None => fun _ _ => None
  end.

Definition delay_of (backoffOptions : BackoffOptions) : Z :=
  match delay backoffOptions with Some d => d | None => 500%Z end.

(** [fetchWithBackoff(input, init, fetch, backoffOptions)]; [fetch = None]
    is a missing implementation. The loop runs at most [maxRetries + 1]
    times, so [maxRetries + 2] units of fuel are never used up. *)
Definition fetchWithBackoff (fetch : option Fetch) (backoffOptions : BackoffOptions)
  : option (outcome * list effect) :=
  match fetch with
  | None => Some (Thrown (Error (units "No fetch implementation found.")), [])
  | Some fetch =>
    loop fetch (maxRetries_of backoffOptions) (onRateLimitReached_of backoffOptions)
         (S (S (Z.to_nat (maxRetries_of backoffOptions)))) 0%Z
         (delay_of backoffOptions) O
  end.

Definition fetches (t : list effect) : nat :=
  length (filter (fun e => match e with Fetched => true | _ => false end) t).

Definition notifications (t : list effect) : nat :=
  length (filter (fun e => match e with Notified _ _ => true | _ => false end) t).

Definition sleeps (t : list effect) : list Z :=
  flat_map (fun e => match e with Slept d => [d] | _ => [] end) t.

(** *** The vocabulary of the statements about the executor *)

(** A body that declares the type ["RATE_LIMIT_REACHED"] or the error code
    ["429"]. *)
Definition declares_rate_limit (data : json) : Prop :=
  exists members, data = JObj members /\
    (assoc (units "type") members = Some (JStr RATE_LIMIT_REACHED)
     \/ exists e, assoc (units "error") members = Some (JObj e)
                  /\ assoc (units "code") e = Some (JStr (units "429"))).

(** A non-success response whose body declares the rate limit. *)
Definition rate_limited (r : settled) : Prop :=
  exists response data,
    r = Resolved response /\ ok response = false
    /\ json_ response = Parsed data /\ declares_rate_limit data.

(** The hook of the options, when there is one, returns at every call. *)
Definition hook_returns (backoffOptions : BackoffOptions) : Prop :=
  forall h, onRateLimitReached backoffOptions = Some h ->
            forall retries d, h retries d = None.

(** [n] retries from attempt [i] with delay [d], then a last attempt. *)
Fixpoint retry_trace (n : nat) (i d : Z) : list effect :=
  match n with
  | O => [Fetched]
  | S n' => Fetched :: Logged d :: Notified i d :: Slept d
              :: retry_trace n' (i + 1)%Z (d * 2)%Z
  end.

End Backoff.

(* ================================================================== *)
(** ** The output side: ReadableStreamDefaultController

    The runtime's controller of [new ReadableStream({ start })], after the
    algorithms of the Streams standard, with the default queuing strategy
    (high-water mark 1, every chunk of size 1). *)

Module Streams.

(** What the stream is errored with. *)
Inductive reason :=
| Upstream (detail : value)   (* new Error(detail) *)
| Raised (e : exn).           (* the exception start() was rejected with *)

Inductive stream_state :=
| Readable
| Closed
| Errored (r : reason).

Record controller := {
  state : stream_state;
  queue : list jsstring;        (* chunks enqueued and not yet read *)
  closeRequested : bool;
  readRequests : nat            (* reads of the consumer waiting for a chunk *)
}.

Definition fresh : controller :=
  {| state := Readable; queue := []; closeRequested := false; readRequests := O |}.

Definition highWaterMark : Z := 1.

Definition is_readable (c : controller) : bool :=
  match state c with Readable => true | _ => false end.

(** [controller.desiredSize]: [None] is [null]. *)
Definition desiredSize (c : controller) : option Z :=
  match state c with
  | Errored _ => None
  | Closed => Some 0%Z
  | Readable => Some (highWaterMark - Z.of_nat (length (queue c)))%Z
  end.

(** ToBoolean of a desired size. *)
Definition size_truthy (size : option Z) : bool :=
  match size with
  | Some z => negb (z =? 0)%Z
  | None => false
  end.

(** ReadableStreamDefaultControllerCanCloseOrEnqueue *)
Definition canCloseOrEnqueue (c : controller) : bool :=
  negb (closeRequested c) && is_readable c.

(** [controller.close()] *)
Definition close (c : controller) : exn + controller :=
  if canCloseOrEnqueue c then
    inr {| state := match queue c with [] => Closed | _ :: _ => state c end;
           queue := queue c;
           closeRequested := true;
           readRequests := match queue c with [] => O | _ :: _ => readRequests c end |}
  else inl (TypeError InvalidState).

(** [controller.enqueue(chunk)]: a waiting read takes the chunk, otherwise
    it joins the queue. *)
Definition enqueue (chunk : jsstring) (c : controller) : exn + controller :=
  if canCloseOrEnqueue c then
    inr match readRequests c with
        | S n => {| state := state c; queue := queue c;
                    closeRequested := closeRequested c; readRequests := n |}
        | O => {| state := state c; queue := queue c ++ [chunk];
                  closeRequested := closeRequested c; readRequests := O |}
        end
  else inl (TypeError InvalidState).

(** [controller.error(e)]: nothing unless the stream is readable; the queue
    is reset and the waiting reads are rejected. *)
Definition error (r : reason) (c : controller) : controller :=
  if is_readable c then
    {| state := Errored r; queue := []; closeRequested := closeRequested c;
       readRequests := O |}
  else c.

(** One [reader.read()] of the consumer. *)
Definition read (c : controller) : controller :=
  match state c with
  | Readable =>
    match queue c with
    | _ :: rest =>
      {| state := if closeRequested c && match rest with [] => true | _ => false end
                  then Closed else Readable;
         queue := rest; closeRequested := closeRequested c;
         readRequests := readRequests c |}
    | [] =>
      {| state := Readable; queue := []; closeRequested := closeRequested c;
         readRequests := S (readRequests c) |}
    end
  | _ => c
  end.

End Streams.

(* ================================================================== *)
(** ** streams.ts *)

Module Framer.

Import Streams.

Inductive StreamMode := raw | tokens.

(** A hook called once: it returns ([None]) or throws. *)
Definition DoneHook := option exn.

Record OpenAIStreamOptions := {
  mode : option StreamMode;
  onDone : option DoneHook;
  onParse : option (jsstring -> option exn)
}.

(** What the framer does to its output, in order. *)
Inductive action :=
| AEnqueue (frame : jsstring)   (* controller.enqueue(ENCODER.encode(frame)) accepted *)
| AClose                        (* controller.close() *)
| AError (detail : value)       (* controller.error(new Error(detail)) *)
| AOnDone.                      (* onDone() *)

Record world := { ctrl : controller; log : list action }.

Definition record (a : action) (c : controller) (w : world) : world :=
  {| ctrl := c; log := log w ++ [a] |}.

(** How a block of statements completes. *)
Inductive completion :=
| Normal
| Return
| Throw (e : exn).

(** [const closeController = async (controller, onDone) => ...] *)
Definition closeController (onDone_ : option DoneHook) (w : world)
  : completion * world :=
  let closed :=
    if size_truthy (desiredSize (ctrl w)) then
      match close (ctrl w) with
      | inr c => (Normal, record AClose c w)
      | inl e => (Throw e, w)
      end
    else (Normal, w) in
  match closed with
  | (Normal, w1) =>
    match onDone_ with
    | None => (Normal, w1)
    | Some hook =>
      (match hook with None => Normal | Some e => Throw e end,
       record AOnDone (ctrl w1) w1)
    end
  | thrown => thrown
  end.

(** [await closeController(controller, onDone); return;] *)
Definition close_and_return (onDone_ : option DoneHook) (w : world)
  : completion * world :=
  match closeController onDone_ w with
  | (Normal, w') => (Return, w')
  | thrown => thrown
  end.

Definition DONE_EVENT : jsstring := units "data: [DONE]".
Definition DONE : jsstring := units "[DONE]".

(** [const bufferIsDone = (buffer) => ...] *)
Definition bufferIsDone (buffer : jsstring) : bool :=
  startsWith DONE_EVENT buffer || JS.eqb buffer DONE.

Definition LFLF : jsstring := [10%N; 10%N].

Definition finish_reason : jsstring := units "finish_reason".

(** [x.hasOwnProperty(k)] for [k = "error"]: the method is inherited from
    [Object.prototype] unless the object has a member of that name, which
    is a JSON value and cannot be called. *)
Definition hasOwnProperty (x : json) (k : jsstring) : exn + bool :=
  match x with
  | JNull => inl (TypeError (ReadOfNull (units "hasOwnProperty")))
  | JObj members =>
    match assoc (units "hasOwnProperty") members with
    | Some _ => inl (TypeError (NotCallable (units "hasOwnProperty")))
    | None => inr (match assoc k members with Some _ => true | None => false end)
    end
  | _ => inr false
  end.

Section EventStream.

(** [JSON.parse]: [None] when it throws. *)
Variable JSON_parse : jsstring -> option json.

Variable mode_ : StreamMode.
Variable onDone_ : option DoneHook.

(** [for (const choice of choices) { ... }] over an array. *)
Fixpoint for_choices (choices : list json) (w : world) : completion * world :=
  match choices with
  | [] => (Normal, w)
  | choice :: rest =>
    if is_string (prop choice finish_reason) (units "stop") then
      close_and_return onDone_ w
    else if match mode_ with tokens => true | raw => false end
            && is_string (prop choice finish_reason) (units "length") then
      (Throw (OpenAIError MAX_TOKENS), w)
    else for_choices rest w
  end.

(** [if (parsed?.choices) { for (const choice of choices) ... }]: a string
    iterates over its characters, whose [finish_reason] is undefined; the
    other truthy values that are no arrays are not iterable. *)
Definition check_choices (parsed : json) (w : world) : completion * world :=
  let choices := prop parsed (units "choices") in
  if truthy choices then
    match choices with
    | Some (JArr l) => for_choices l w
    | Some (JStr _) => (Normal, w)
    | _ => (Throw (TypeError NotIterable), w)
    end
  else (Normal, w).

(** [if (parsed.hasOwnProperty("error")) controller.error(new Error(parsed.error.message))] *)
Definition check_error (parsed : json) (w : world) : completion * world :=
  match hasOwnProperty parsed (units "error") with
  | inl e => (Throw e, w)
  | inr false => (Normal, w)
  | inr true =>
    match prop parsed (units "error") with
    | Some JNull => (Throw (TypeError (ReadOfNull (units "message"))), w)
    | e =>
      let detail := prop_opt e (units "message") in
      (Normal, record (AError detail) (error (Upstream detail) (ctrl w)) w)
    end
  end.

(** [controller.enqueue(ENCODER.encode(jsonString))] *)
Definition send (jsonString : jsstring) (w : world) : completion * world :=
  match enqueue jsonString (ctrl w) with
  | inr c => (Normal, record (AEnqueue jsonString) c w)
  | inl e => (Throw e, w)
  end.

(** The block guarded by [typeof parsed === "object"]. *)
Definition on_object (jsonString : jsstring) (parsed : json) (w : world)
  : completion * world :=
  match check_choices parsed w with
  | (Normal, w1) =>
    match check_error parsed w1 with
    | (Normal, w2) => send jsonString w2
    | stop => stop
    end
  | stop => stop
  end.

(** [while (true) { ... }]: [Normal] is the [break] that waits for the next
    chunk. Every turn that does not leave the loop shortens the buffer. *)
Fixpoint while_true (fuel : nat) (buffer : jsstring) (w : world)
  : option (completion * world * jsstring) :=
  match fuel with
  | O => None
  | S fuel' =>
    match indexOf LFLF buffer with
    | None =>
      if bufferIsDone buffer then Some (close_and_return onDone_ w, buffer)
      else Some (Normal, w, buffer)
    | Some boundary =>
      let jsonString := trim (slice 5 boundary buffer) in
      let buffer := sliceFrom (boundary + 2) buffer in
      if bufferIsDone buffer then Some (close_and_return onDone_ w, buffer)
      else
        let parsed := match JSON_parse jsonString with
                      | Some v => v
                      | None => JNull
                      end in
        match (if typeof_object parsed then on_object jsonString parsed w
               else (Normal, w)) with
        | (Normal, w') => while_true fuel' buffer w'
        | (stop, w') => Some (stop, w', buffer)
        end
    end
  end.

(** The body of [for await (const chunk of ...)], [decoded] being
    [DECODER.decode(chunk, { stream: true })]. *)
Definition on_chunk (buffer decoded : jsstring) (w : world)
  : option (completion * world * jsstring) :=
  let buffer := buffer ++ decoded in
  if bufferIsDone buffer then Some (close_and_return onDone_ w, buffer)
  else while_true (S (length buffer)) buffer w.

(** What the source and the consumer do while [start] runs: the source
    delivers the decoded text of its next chunk, or the consumer reads from
    the output while [start] awaits the next chunk. *)
Inductive item :=
| Chunk (decoded : jsstring)
| Read.

Inductive status :=
| Completed        (* start() returned after closeController *)
| Exhausted        (* the source ended: the loop is left and start() returns *)
| Failed (e : exn).  (* start() threw: the runtime errors the stream with e *)

(** How [start] ends once the loop over the chunks is left: a rejected
    [start] makes the runtime call the controller's error algorithm. *)
Definition finish (k : completion) (w : world) : status * world :=
  match k with
  | Normal => (Exhausted, w)
  | Return => (Completed, w)
  | Throw e => (Failed e, {| ctrl := error (Raised e) (ctrl w); log := log w |})
  end.

(** [async start(controller) { ... }] *)
Fixpoint start (source : list item) (buffer : jsstring) (w : world)
  : option (status * world) :=
  match source with
  | [] => Some (finish Normal w)
  | Read :: rest =>
    start rest buffer {| ctrl := read (ctrl w); log := log w |}
  | Chunk decoded :: rest =>
    match on_chunk buffer decoded w with
    | None => None
    | Some (Normal, w', buffer') => start rest buffer' w'
    | Some (stop, w', _) => Some (finish stop w')
    end
  end.

End EventStream.

(** [export const EventStream = (stream, { mode = "tokens", onDone }) => ...] *)
Definition EventStream (JSON_parse : jsstring -> option json)
  (stream : list item) (options : OpenAIStreamOptions) : option (status * world) :=
  let mode_ := match mode options with Some m => m | None => tokens end in
  start JSON_parse mode_ (onDone options) stream [] {| ctrl := fresh; log := [] |}.

(** The first stage of [TokenStream] and of [ChatStream]:
    [(stream, options = { mode: "tokens" }) => pipeline(EventStream(stream, options), ...)] *)
Definition first_stage (JSON_parse : jsstring -> option json)
  (stream : list item) (options : option OpenAIStreamOptions)
  : option (status * world) :=
  EventStream JSON_parse stream
    match options with
    | Some o => o
    | None => {| mode := Some tokens; onDone := None; onParse := None |}
    end.

Definition frames (l : list action) : list jsstring :=
  flat_map (fun a => match a with AEnqueue f => [f] | _ => [] end) l.

Definition onDone_calls (l : list action) : nat :=
  length (filter (fun a => match a with AOnDone => true | _ => false end) l).

Definition closes (l : list action) : nat :=
  length (filter (fun a => match a with AClose => true | _ => false end) l).

(** *** The vocabulary of the statements about the framer *)

(** The controller accepts chunks: readable, and no close requested. *)
Definition open (w : world) : Prop :=
  state (ctrl w) = Readable /\ closeRequested (ctrl w) = false.

(** What [closeController] adds to the log. *)
Definition close_part (w : world) : list action :=
  if size_truthy (desiredSize (ctrl w)) then [AClose] else [].

Definition done_part (onDone_ : option DoneHook) : list action :=
  match onDone_ with Some _ => [AOnDone] | None => [] end.

Definition hook_completion (onDone_ : option DoneHook) : completion :=
  match onDone_ with Some (Some e) => Throw e | _ => Normal end.

Definition closing (cl : list action) : Prop := cl = [] \/ cl = [AClose].

(** The actions that may follow the frames of a run, by the way it ends. *)
Inductive tail (onDone_ : option DoneHook) : completion -> list action -> Prop :=
| tail_normal : tail onDone_ Normal []
| tail_return cl :
    closing cl -> tail onDone_ Return (cl ++ done_part onDone_)
| tail_throw e : tail onDone_ (Throw e) []
| tail_error d : tail onDone_ (Throw (TypeError InvalidState)) [AError d]
| tail_hook cl e :
    closing cl -> onDone_ = Some (Some e) ->
    tail onDone_ (Throw e) (cl ++ [AOnDone]).

Definition completion_of (st : status) : completion :=
  match st with
  | Completed => Return
  | Exhausted => Normal
  | Failed e => Throw e
  end.

(** A log is some frames followed by the tail of the way the run ended. *)
Definition shape (onDone_ : option DoneHook) (st : status) (l : list action) : Prop :=
  exists fs tl, l = map AEnqueue fs ++ tl /\ tail onDone_ (completion_of st) tl.

(** Every action but the enqueueing of a frame ends the frames. *)
Definition terminal (a : action) : bool :=
  match a with AEnqueue _ => false | _ => true end.

(** The sentinel as the words of the specification have it: the text equals
    or begins with the literal [[DONE]]. *)
Definition sentinel_per_spec (text : jsstring) : bool :=
  JS.eqb text DONE || startsWith DONE text.

(** What a choice decides, if anything. *)
Inductive verdict := Stop | Length.

Definition decides (m : StreamMode) (choice : json) (v : verdict) : Prop :=
  match v with
  | Stop => is_string (prop choice finish_reason) (units "stop") = true
  | Length => m = tokens
              /\ is_string (prop choice finish_reason) (units "length") = true
  end.

Definition undecided (m : StreamMode) (choice : json) : Prop :=
  is_string (prop choice finish_reason) (units "stop") = false
  /\ (m = tokens ->
      is_string (prop choice finish_reason) (units "length") = false).

Definition verdict_result (onDone_ : option DoneHook) (w : world) (v : verdict)
  : completion * world :=
  match v with
  | Stop => close_and_return onDone_ w
  | Length => (Throw (OpenAIError MAX_TOKENS), w)
  end.

End Framer.

(* ================================================================== *)
(** ** A reader for the JSON grammar

    [JSON.parse] is a built-in of the runtime and a parameter of the framer
    above. The examples at concrete inputs run the framer with this reader of
    the JSON grammar (ECMA-404): white space, the three literals, numbers
    with fraction and exponent, strings with their escapes, arrays and
    objects (a repeated key keeps its last value). *)

Module Reference.

Local Open Scope N_scope.

Definition isSpace (u : code_unit) : bool :=
  (u =? 32) || (u =? 9) || (u =? 10) || (u =? 13).

Fixpoint skip_ws (s : jsstring) : jsstring :=
  match s with
  | u :: s' => if isSpace u then skip_ws s' else s
  | [] => []
  end.

Definition isDigit (u : code_unit) : bool := (48 <=? u) && (u <=? 57).

Definition hex (u : code_unit) : option N :=
  if isDigit u then Some (u - 48)
  else if (97 <=? u) && (u <=? 102) then Some (u - 87)
  else if (65 <=? u) && (u <=? 70) then Some (u - 55)
  else None.

Definition hex4 (a b c d : code_unit) : option code_unit :=
  match hex a, hex b, hex c, hex d with
  | Some a, Some b, Some c, Some d => Some (((a * 16 + b) * 16 + c) * 16 + d)
  | _, _, _, _ => None
  end.

(** The character a one-letter escape stands for. *)
Definition escape (u : code_unit) : option code_unit :=
  if (u =? 34) || (u =? 92) || (u =? 47) then Some u
  else if u =? 98 then Some 8
  else if u =? 102 then Some 12
  else if u =? 110 then Some 10
  else if u =? 114 then Some 13
  else if u =? 116 then Some 9
  else None.

(** The rest of a string after its opening quote. *)
Fixpoint read_string (s acc : jsstring) : option (jsstring * jsstring) :=
  match s with
  | [] => None
  | u :: rest =>
    if u =? 34 then Some (rev acc, rest)
    else if u =? 92 then
      match rest with
      | [] => None
      | e :: rest1 =>
        if e =? 117 then
          match rest1 with
          | a :: b :: c :: d :: rest2 =>
            match hex4 a b c d with
            | Some x => read_string rest2 (x :: acc)
            | None => None
            end
          | _ => None
          end
        else
          match escape e with
          | Some x => read_string rest1 (x :: acc)
          | None => None
          end
      end
    else if u <? 32 then None
    else read_string rest (u :: acc)
  end.

(** A run of digits: its value on top of [acc], its length, the rest. *)
Fixpoint read_digits (s : jsstring) (acc : Z) (n : nat) : Z * nat * jsstring :=
  match s with
  | u :: rest =>
    if isDigit u then read_digits rest (acc * 10 + Z.of_N (u - 48))%Z (S n)
    else (acc, n, s)
  | [] => (acc, n, s)
  end.

Definition read_fraction (s : jsstring) (int : Z) : option (Z * nat * jsstring) :=
  match s with
  | u :: rest =>
    if u =? 46 then
      match read_digits rest int O with
      | (_, O, _) => None
      | r => Some r
      end
    else Some (int, O, s)
  | [] => Some (int, O, s)
  end.

Definition read_exponent (s : jsstring) : option (Z * jsstring) :=
  match s with
  | u :: rest =>
    if (u =? 101) || (u =? 69) then
      let '(negative, rest1) :=
        match rest with
        | sign :: rest1 =>
          if sign =? 45 then (true, rest1)
          else if sign =? 43 then (false, rest1)
          else (false, rest)
        | [] => (false, rest)
        end in
      match read_digits rest1 0%Z O with
      | (_, O, _) => None
      | (e, _, rest2) => Some (if negative then (- e)%Z else e, rest2)
      end
    else Some (0%Z, s)
  | [] => Some (0%Z, s)
  end.

(** [mantissa * 10 ^ exponent] *)
Definition scale (mantissa exponent : Z) : Q :=
  if (0 <=? exponent)%Z then inject_Z (mantissa * 10 ^ exponent)
  else Qmake mantissa (Z.to_pos (10 ^ (- exponent))).

(** A number without its sign: no leading zero before further digits. *)
Definition read_number (s : jsstring) : option (Q * jsstring) :=
  match s with
  | u :: rest =>
    if isDigit u then
      let '(int, _, rest1) :=
        if u =? 48 then (0%Z, 1%nat, rest) else read_digits s 0%Z O in
      match read_fraction rest1 int with
      | Some (mantissa, places, rest2) =>
        match read_exponent rest2 with
        | Some (e, rest3) => Some (scale mantissa (e - Z.of_nat places), rest3)
        | None => None
        end
      | None => None
      end
    else None
  | [] => None
  end.

Fixpoint remove_key (k : jsstring) (members : list (jsstring * json))
  : list (jsstring * json) :=
  match members with
  | [] => []
  | (k', v) :: rest =>
    if JS.eqb k k' then remove_key k rest else (k', v) :: remove_key k rest
  end.

Definition put (k : jsstring) (v : json) (members : list (jsstring * json)) :=
  remove_key k members ++ [(k, v)].

Fixpoint read_value (fuel : nat) (s : jsstring) : option (json * jsstring) :=
  match fuel with
  | O => None
  | S fuel' =>
    match skip_ws s with
    | [] => None
    | u :: rest =>
      if u =? 123 then
        match skip_ws rest with
        | c :: rest1 =>
          if c =? 125 then Some (JObj [], rest1) else read_members fuel' rest []
        | [] => None
        end
      else if u =? 91 then
        match skip_ws rest with
        | c :: rest1 =>
          if c =? 93 then Some (JArr [], rest1) else read_elements fuel' rest []
        | [] => None
        end
      else if u =? 34 then
        match read_string rest [] with
        | Some (str, rest1) => Some (JStr str, rest1)
        | None => None
        end
      else if u =? 45 then
        match read_number rest with
        | Some (q, rest1) => Some (JNum (Qopp q), rest1)
        | None => None
        end
      else if isDigit u then
        match read_number (u :: rest) with
        | Some (q, rest1) => Some (JNum q, rest1)
        | None => None
        end
      else if startsWith (units "true") (u :: rest) then
        Some (JBool true, skipn 4 (u :: rest))
      else if startsWith (units "false") (u :: rest) then
        Some (JBool false, skipn 5 (u :: rest))
      else if startsWith (units "null") (u :: rest) then
        Some (JNull, skipn 4 (u :: rest))
      else None
    end
  end

with read_elements (fuel : nat) (s : jsstring) (acc : list json)
  : option (json * jsstring) :=
  match fuel with
  | O => None
  | S fuel' =>
    match read_value fuel' s with
    | Some (v, rest) =>
      match skip_ws rest with
      | c :: rest1 =>
        if c =? 44 then read_elements fuel' rest1 (v :: acc)
        else if c =? 93 then Some (JArr (rev (v :: acc)), rest1)
        else None
      | [] => None
      end
    | None => None
    end
  end

with read_members (fuel : nat) (s : jsstring) (acc : list (jsstring * json))
  : option (json * jsstring) :=
  match fuel with
  | O => None
  | S fuel' =>
    match skip_ws s with
    | q :: rest =>
      if q =? 34 then
        match read_string rest [] with
        | Some (k, rest1) =>
          match skip_ws rest1 with
          | colon :: rest2 =>
            if colon =? 58 then
              match read_value fuel' rest2 with
              | Some (v, rest3) =>
                match skip_ws rest3 with
                | c :: rest4 =>
                  if c =? 44 then read_members fuel' rest4 (put k v acc)
                  else if c =? 125 then Some (JObj (put k v acc), rest4)
                  else None
                | [] => None
                end
              | None => None
              end
            else None
          | [] => None
          end
        | None => None
        end
      else None
    | [] => None
    end
  end.

(** The whole text is one value between optional white space. Every call
    above consumes a character before the next one, so the fuel is ample. *)
Definition JSON_parse (s : jsstring) : option json :=
  match read_value (2 * List.length s + 2) s with
  | Some (v, rest) =>
    match skip_ws rest with
    | [] => Some v
    | _ :: _ => None
    end
  | None => None
  end.

End Reference.


(* ================================================================== *)
(** ** Concrete inputs *)

Module Samples.

Import Backoff Streams Framer.

(** The body [{"error":{"code":"429"}}]. *)
Definition body_429 : json :=
  JObj [(units "error", JObj [(units "code", JStr (units "429"))])].

(** A fetch that answers every call with [ok = false] and that body. *)
Definition always_429 : Fetch :=
  fun _ => Resolved {| ok := false; json_ := Parsed body_429 |}.

(** [{ maxRetries: 2, delay: 10 }] *)
Definition policy_2_10 : BackoffOptions :=
  {| maxRetries := Some 2%Z; delay := Some 10%Z; onRateLimitReached := None |}.

(** [{ onDone }] with a hook that returns: no mode given. *)
Definition hook_only : OpenAIStreamOptions :=
  {| mode := None; onDone := Some None; onParse := None |}.

(** [{}]: no mode, no hook. *)
Definition no_options : OpenAIStreamOptions :=
  {| mode := None; onDone := None; onParse := None |}.

(** [{ mode: "tokens", onDone }] *)
Definition token_mode : OpenAIStreamOptions :=
  {| mode := Some tokens; onDone := Some None; onParse := None |}.

Definition world0 : world := {| ctrl := fresh; log := [] |}.

(** A payload with a blank line inside, cut at that blank line. *)
Definition split_payload : list item :=
  [Chunk (wire "data: {'a':$$"); Chunk (wire "1}$$")].

(** One event and the end of the source, no sentinel. *)
Definition one_event_no_sentinel : list item :=
  [Chunk (wire "data: {'a':1}$$")].

(** The bare sentinel followed by a blank line. *)
Definition bare_sentinel_line : list item := [Chunk (wire "[DONE]$$")].

(** A broken payload followed by the sentinel event, in one chunk. *)
Definition broken_then_done : jsstring := wire "data: {'a':$$data: [DONE]$$".

Definition length_then_stop : jsstring :=
  wire "data: {'choices':[{'finish_reason':'length'},{'finish_reason':'stop'}]}$$".

Definition null_then_stop : jsstring :=
  wire "data: {'choices':[{'finish_reason':null},{'finish_reason':'stop'}]}$$".

Definition only_length : jsstring :=
  wire "data: {'choices':[{'finish_reason':'length'}]}$$".

Definition upstream_error : jsstring :=
  wire "data: {'error':{'message':'boom'}}$$".

Definition choice_with (reason : json) : json := JObj [(finish_reason, reason)].

(** The [TypeError] of [null.hasOwnProperty]. *)
Definition null_hasOwnProperty : exn :=
  TypeError (ReadOfNull (units "hasOwnProperty")).

(** A stream that failed with [e] before any action on its output. *)
Definition failed_at_once (e : exn) : status * world :=
  (Failed e, {| ctrl := error (Raised e) fresh; log := [] |}).

End Samples.

(* ================================================================== *)
(** ** Runs of the executor in general *)

Module BackoffRuns.

Import Backoff.

(** [n] retries from attempt [i] with delay [d]: request, log, hook, sleep. *)
Fixpoint retry_steps (n : nat) (i d : Z) : list effect :=
  match n with
  | O => []
  | S n' => Fetched :: Logged d :: Notified i d :: Slept d
              :: retry_steps n' (i + 1)%Z (d * 2)%Z
  end.

(** The arguments the hook was called with, in order. *)
Definition notified (t : list effect) : list (Z * Z) :=
  flat_map (fun e => match e with Notified r d => [(r, d)] | _ => [] end) t.

(** An attempt that throws without a response to hand back: [fetch]
    rejects, [response.json()] rejects, or the body of a non-success
    response is [null]. *)
Inductive attempt_fails : settled -> exn -> Prop :=
| fails_rejected e : attempt_fails (Rejected e) e
| fails_unparsable response e :
    ok response = false -> json_ response = Unparsable e ->
    attempt_fails (Resolved response) e
| fails_null response :
    ok response = false -> json_ response = Parsed JNull ->
    attempt_fails (Resolved response) (TypeError (ReadOfNull (units "type"))).

(** An attempt the executor answers with a retry, as long as retries are
    left: a rate-limited response, or a failure whose message is
    ["RATE_LIMIT_REACHED"]. *)
Definition retryable (s : settled) : Prop :=
  rate_limited s
  \/ exists e, attempt_fails s e /\ message e = Some RATE_LIMIT_REACHED.

(** A response the executor hands back: a success, or a non-success whose
    body is no [null] and declares neither the type nor the code. *)
Definition handed_back (response : Response) : Prop :=
  ok response = true
  \/ exists data,
       json_ response = Parsed data /\ data <> JNull
       /\ is_string (prop data (units "type")) RATE_LIMIT_REACHED = false
       /\ is_string (prop_opt (prop data (units "error")) (units "code"))
                    (units "429") = false.

(** The delay of the retry number [j] (from 0) under the initial delay [d]. *)
Definition delay_at (d : Z) (j : nat) : Z := (d * 2 ^ Z.of_nat j)%Z.

(** The hook returns at its first [k] calls of a run with initial delay [d]. *)
Definition hook_returns_until (h : Hook) (d : Z) (k : nat) : Prop :=
  forall j, (j < k)%nat -> h (Z.of_nat j) (delay_at d j) = None.

End BackoffRuns.

Module MoreSamples.

Import Backoff BackoffRuns Samples.

(** A success response. *)
Definition ok_response : Response := {| ok := true; json_ := Parsed JNull |}.

(** A non-success response whose body [{"error":{"code":"500"}}] declares
    no rate limit. *)
Definition server_error : Response :=
  {| ok := false;
     json_ := Parsed (JObj [(units "error", JObj [(units "code", JStr (units "500"))])]) |}.

(** Rate-limited twice, then the given settlement at every later call. *)
Definition limited_twice_then (s : settled) : Fetch :=
  fun k => match k with
           | O | S O => always_429 k
           | _ => s
           end.

(** A fetch that rejects every call with an error of the rate-limit message. *)
Definition always_rejects : Fetch :=
  fun k => Rejected (Error RATE_LIMIT_REACHED).

(** [{ maxRetries: 5, delay: 10 }] *)
Definition policy_5_10 : BackoffOptions :=
  {| maxRetries := Some 5%Z; delay := Some 10%Z; onRateLimitReached := None |}.

(** [{ maxRetries: 5, delay: 10, onRateLimitReached }] with a hook that
    throws at its third call. *)
Definition policy_hook_throws : BackoffOptions :=
  {| maxRetries := Some 5%Z; delay := Some 10%Z;
     onRateLimitReached :=
       Some (fun retries _ => if (retries =? 2)%Z then Some (Error (units "stop"))
                              else None) |}.

(** [{ maxRetries: -1 }] *)
Definition policy_negative : BackoffOptions :=
  {| maxRetries := Some (-1)%Z; delay := None; onRateLimitReached := None |}.

End MoreSamples.

(* ================================================================== *)
(** ** Streams of events, line by line *)

Module FramerRuns.

Import Streams Framer.

Section Feed.

Variable JSON_parse : jsstring -> option json.
Variable mode_ : StreamMode.
Variable onDone_ : option DoneHook.

(** The loop of [start] over the chunks, with the buffer it leaves behind:
    [Normal] when the source is used up. *)
Fixpoint feed (source : list item) (buffer : jsstring) (w : world)
  : option (completion * world * jsstring) :=
  match source with
  | [] => Some (Normal, w, buffer)
  | Read :: rest => feed rest buffer {| ctrl := read (ctrl w); log := log w |}
  | Chunk decoded :: rest =>
    match on_chunk JSON_parse mode_ onDone_ buffer decoded w with
    | Some (Normal, w', buffer') => feed rest buffer' w'
    | other => other
    end
  end.

End Feed.

(** What [start] makes of the way the loop was left. *)
Definition finished (r : option (completion * world * jsstring))
  : option (status * world) :=
  match r with
  | Some (k, w, _) => Some (finish k w)
  | None => None
  end.

(** The way a loop was left, without the buffer of a loop that was left
    for good. *)
Definition left (r : option (completion * world * jsstring))
  : option (completion * world * jsstring) :=
  match r with
  | Some (Normal, w, b) => Some (Normal, w, b)
  | Some (k, w, _) => Some (k, w, [])
  | None => None
  end.

(** The event that carries [payload] on one line: [data: payload\n\n]. *)
Definition line (payload : jsstring) : jsstring :=
  units "data: " ++ payload ++ LFLF.

Definition one_line (payload : jsstring) : Prop :=
  Forall (fun u => u <> 10%N) payload.

(** No part of the text is taken for the sentinel. *)
Definition quiet (text : jsstring) : Prop :=
  forall before part after,
    text = before ++ part ++ after -> bufferIsDone part = false.

(** The [choices] of an event that do not end the run: a falsy value, a
    string, or an array none of whose elements decides. *)
Definition choices_pass (m : StreamMode) (x : value) : Prop :=
  truthy x = false
  \/ (exists s, x = Some (JStr s))
  \/ (exists l, x = Some (JArr l) /\ Forall (undecided m) l).

(** The values the loop goes past without leaving: no [null]; an object
    without members [hasOwnProperty] and [error] and with choices that
    pass; anything else. *)
Definition passes (m : StreamMode) (v : json) : Prop :=
  match v with
  | JNull => False
  | JObj members =>
    assoc (units "hasOwnProperty") members = None
    /\ assoc (units "error") members = None
    /\ choices_pass m (assoc (units "choices") members)
  | _ => True
  end.

(** An event on one line whose payload parses to a value that passes. *)
Definition well_formed (JSON_parse : jsstring -> option json) (m : StreamMode)
  (event : jsstring * json) : Prop :=
  one_line (fst event)
  /\ JSON_parse (trim (fst event)) = Some (snd event)
  /\ passes m (snd event).

(** The text of a stream of events, and the frames of those whose value is
    an object or an array. *)
Definition text_of (events : list (jsstring * json)) : jsstring :=
  concat (map (fun event => line (fst event)) events).

Definition frames_of (events : list (jsstring * json)) : list jsstring :=
  map (fun event => trim (fst event))
      (filter (fun event => typeof_object (snd event)) events).

(** Frames that the parser accepts as an object or an array. *)
Definition whole_objects (JSON_parse : jsstring -> option json)
  (fs : list jsstring) : Prop :=
  Forall (fun f => exists v, JSON_parse f = Some v /\ typeof_object v = true
                             /\ v <> JNull) fs.

(** The mode of a run: [{ mode = "tokens" }]. *)
Definition mode_of (options : OpenAIStreamOptions) : StreamMode :=
  match mode options with Some m => m | None => tokens end.

(** The source without the reads of the consumer. *)
Definition chunks_only (source : list item) : list item :=
  filter (fun i => match i with Chunk _ => true | Read => false end) source.

(** Two ways a block was left on two states of the output that had the
    same log: left alike, with the same frames and as many calls of the
    hook; when the block went through, both outputs still accept chunks and
    the logs are still the same. *)
Definition agree (r1 r2 : completion * world) : Prop :=
  fst r1 = fst r2
  /\ (fst r1 = Normal ->
      open (snd r1) /\ open (snd r2) /\ log (snd r1) = log (snd r2))
  /\ frames (log (snd r1)) = frames (log (snd r2))
  /\ onDone_calls (log (snd r1)) = onDone_calls (log (snd r2)).

(** The output with the frames [fs] enqueued and none of them read. *)
Definition queued (fs : list jsstring) : world :=
  {| ctrl := {| state := Readable; queue := fs; closeRequested := false;
                readRequests := 0 |};
     log := map AEnqueue fs |}.

(** The controller [closeController] leaves behind on that output: untouched
    when one frame is queued, closed at once when none is, and with the
    close requested otherwise. *)
Definition closed_after (fs : list jsstring) : controller :=
  if (length fs =? 1)%nat then ctrl (queued fs)
  else {| state := if (length fs =? 0)%nat then Closed else Readable;
          queue := fs; closeRequested := true; readRequests := 0 |}.

(** The log of a run that framed [fs] and ended in [closeController]. *)
Definition closing_log (onDone_ : option DoneHook) (fs : list jsstring)
  : list action :=
  map AEnqueue fs ++ (if (length fs =? 1)%nat then [] else [AClose])
  ++ done_part onDone_.

(** The controller after the frames were enqueued one by one. *)
Definition enqueue_all (fs : list jsstring) (c : controller) : controller :=
  fold_left (fun c f => match enqueue f c with inr c' => c' | inl _ => c end) fs c.

End FramerRuns.

Module StreamSamples.

Import Streams Framer FramerRuns Samples.

Definition hello : jsstring := wire "{'choices':[{'delta':{'content':'Hi'}}]}".

Definition hello_value : json :=
  JObj [(units "choices",
         JArr [JObj [(units "delta", JObj [(units "content", JStr (units "Hi"))])]])].

(** Three events: an object, a number, an array. *)
Definition three_events : list (jsstring * json) :=
  [(hello, hello_value); (units "42", JNum 42); (units "[1]", JArr [JNum 1])].

(** Their text cut in the middle of the first payload and inside the
    second boundary. *)
Definition three_events_chunks : list jsstring :=
  [wire "data: {'choices':[{'delta':"; wire "{'content':'Hi'}}]}$$data: 42$";
   wire "$data: [1]$$"].

Definition stopped : jsstring := wire "{'choices':[{'finish_reason':'stop'}]}".

Definition stopped_members : list (jsstring * json) :=
  [(units "choices", JArr [JObj [(finish_reason, JStr (units "stop"))]])].

Definition cut_off : jsstring := wire "{'choices':[{'finish_reason':'length'}]}".

Definition cut_off_members : list (jsstring * json) :=
  [(units "choices", JArr [JObj [(finish_reason, JStr (units "length"))]])].

(** [{ onDone }] with a hook that throws. *)
Definition hook_throws : OpenAIStreamOptions :=
  {| mode := None; onDone := Some (Some (Error (units "hook failed")));
     onParse := None |}.

Definition boom : jsstring := wire "{'error':{'message':'boom'}}".

Definition boom_members : list (jsstring * json) :=
  [(units "error", JObj [(units "message", JStr (units "boom"))])].

End StreamSamples.

(* ================================================================== *)
(** * Properties of the backoff executor *)

Module BackoffFacts.

Import Backoff.

Lemma eqb_refl (s : jsstring) : JS.eqb s s = true.
Proof.
  induction s as [|u s IH]; simpl; [reflexivity|].
  now rewrite N.eqb_refl, IH.
Qed.

Lemma eqb_eq (a b : jsstring) : JS.eqb a b = true <-> a = b.
Proof.
  split.
  - revert b; induction a as [|x a IH]; intros [|y b]; simpl; try discriminate;
      [reflexivity|].
    intros H. apply andb_true_iff in H as [Hx Hab].
    apply N.eqb_eq in Hx. apply IH in Hab. now subst.
  - intros ->. apply eqb_refl.
Qed.

Lemma message_is_Error (m : jsstring) : message_is (Error m) m = true.
Proof. unfold message_is. simpl. apply eqb_refl. Qed.

Section Run.

Variable fetch : Fetch.
Variable N : Z.
Variable hook : Hook.

Hypothesis always_limited : forall k, rate_limited (fetch k).
Hypothesis hook_quiet : forall retries d, hook retries d = None.

Lemma attempt_rate_limited (k : nat) :
  attempt fetch k = inl (Error RATE_LIMIT_REACHED).
Proof.
  destruct (always_limited k) as (response & data & Hf & Hok & Hbody & members & -> & Hdecl).
  unfold attempt. rewrite Hf, Hok, Hbody. simpl.
  destruct Hdecl as [Htype | (e & Herr & Hcode)].
  - rewrite Htype. unfold is_string at 1. now rewrite eqb_refl.
  - rewrite Herr. unfold prop_opt, prop. rewrite Hcode.
    unfold is_string at 2. now rewrite eqb_refl, orb_true_r.
Qed.

(** With [n] retries left the loop retries [n] times and rethrows the
    rate-limit error of the last attempt. *)
Lemma loop_rate_limited (n : nat) :
  forall fuel i d calls,
    N = (i + Z.of_nat n)%Z -> (n < fuel)%nat ->
    loop fetch N hook fuel i d calls
    = Some (Thrown (Error RATE_LIMIT_REACHED), retry_trace n i d).
Proof.
  induction n as [|n IH]; intros fuel i d calls HN Hfuel;
    (destruct fuel as [|fuel]; [lia|]); cbn [loop].
  - replace (i <=? N)%Z with true by (symmetry; apply Z.leb_le; lia).
    rewrite attempt_rate_limited.
    replace (i <? N)%Z with false by (symmetry; apply Z.ltb_ge; lia).
    now rewrite andb_false_r.
  - replace (i <=? N)%Z with true by (symmetry; apply Z.leb_le; lia).
    rewrite attempt_rate_limited.
    replace (i <? N)%Z with true by (symmetry; apply Z.ltb_lt; lia).
    rewrite message_is_Error, hook_quiet. cbn [andb].
    rewrite (IH fuel (i + 1)%Z (d * 2)%Z (S calls)) by lia.
    reflexivity.
Qed.

End Run.

Lemma fetches_retry_trace (n : nat) : forall i d, fetches (retry_trace n i d) = S n.
Proof.
  induction n as [|n IH]; intros i d; [reflexivity|].
  unfold fetches in *. simpl. now rewrite IH.
Qed.

Lemma notifications_retry_trace (n : nat) :
  forall i d, notifications (retry_trace n i d) = n.
Proof.
  induction n as [|n IH]; intros i d; [reflexivity|].
  unfold notifications in *. simpl. now rewrite IH.
Qed.

Lemma sleeps_retry_trace (n : nat) :
  forall i d,
    sleeps (retry_trace n i d) = map (fun k => (d * 2 ^ Z.of_nat k)%Z) (seq 0 n).
Proof.
  induction n as [|n IH]; intros i d; [reflexivity|].
  change (sleeps (retry_trace (S n) i d))
    with (d :: sleeps (retry_trace n (i + 1)%Z (d * 2)%Z)).
  rewrite IH. simpl seq. simpl map. f_equal; [lia|].
  rewrite <- seq_shift, map_map. apply map_ext. intros k.
  rewrite Nat2Z.inj_succ, Z.pow_succ_r by lia. lia.
Qed.

Lemma hook_of_returns (options : BackoffOptions) :
  hook_returns options ->
  forall retries d, onRateLimitReached_of options retries d = None.
Proof.
  unfold hook_returns, onRateLimitReached_of. intros H retries d.
  destruct (onRateLimitReached options) as [h|]; [now apply H | reflexivity].
Qed.

(** A permanently rate-limited run, whole. *)
Lemma permanently_rate_limited (fetch : Fetch) (options : BackoffOptions) :
  (0 <= maxRetries_of options)%Z ->
  (forall k, rate_limited (fetch k)) ->
  hook_returns options ->
  fetchWithBackoff (Some fetch) options
  = Some (Thrown (Error RATE_LIMIT_REACHED),
          retry_trace (Z.to_nat (maxRetries_of options)) 0 (delay_of options)).
Proof.
  intros Hpos Hlim Hhook. unfold fetchWithBackoff.
  apply loop_rate_limited; auto using hook_of_returns; lia.
Qed.

(** The executor is total: the fuel it is given is never used up. *)
Lemma loop_total (fetch : Fetch) (N : Z) (hook : Hook) :
  forall fuel i d calls,
    (0 <= i)%Z -> (Z.to_nat (N + 1 - i) < fuel)%nat ->
    exists r, loop fetch N hook fuel i d calls = Some r.
Proof.
  induction fuel as [|fuel IH]; intros i d calls Hi Hfuel; [lia|]. simpl.
  destruct (i <=? N)%Z eqn:Hle; [|eauto].
  destruct (attempt fetch calls); [|eauto].
  destruct (message_is e RATE_LIMIT_REACHED && (i <? N)%Z); [|eauto].
  destruct (hook i d); [eauto|].
  apply Z.leb_le in Hle.
  destruct (IH (i + 1)%Z (d * 2)%Z (S calls)) as [[o t] ->]; [lia|lia|eauto].
Qed.

Lemma fetchWithBackoff_total (fetch : option Fetch) (options : BackoffOptions) :
  exists r, fetchWithBackoff fetch options = Some r.
Proof.
  unfold fetchWithBackoff. destruct fetch as [f|]; [|eauto].
  apply loop_total; lia.
Qed.

End BackoffFacts.

(* ================================================================== *)
(** * Properties of the event framer *)

Module FramerFacts.

Import Streams Framer.

(** ** The loop is total *)

Lemma startsWith_length (p : jsstring) :
  forall s, startsWith p s = true -> (List.length p <= List.length s)%nat.
Proof.
  induction p as [|x p IH]; intros [|y s]; simpl; try lia; try discriminate.
  intros H. apply andb_true_iff in H as [_ H]. apply IH in H. lia.
Qed.

Lemma indexOf_bound (p : jsstring) :
  forall s b, indexOf p s = Some b -> (b + List.length p <= List.length s)%nat.
Proof.
  induction s as [|y s IH]; intros b; simpl indexOf;
    (destruct (startsWith p _) eqn:Hp;
     [intros [= <-]; apply startsWith_length in Hp; simpl in *; lia|]).
  - discriminate.
  - destruct (indexOf p s) as [b'|]; simpl; [|discriminate].
    intros [= <-]. specialize (IH b' eq_refl). simpl. lia.
Qed.

Section Facts.

Variable JSON_parse : jsstring -> option json.
Variable mode_ : StreamMode.
Variable onDone_ : option DoneHook.

Lemma while_true_total :
  forall fuel buffer w,
    (List.length buffer < fuel)%nat ->
    exists r, while_true JSON_parse mode_ onDone_ fuel buffer w = Some r.
Proof.
  induction fuel as [|fuel IH]; intros buffer w Hfuel; [lia|].
  cbn [while_true].
  destruct (indexOf LFLF buffer) as [boundary|] eqn:Hb.
  - destruct (bufferIsDone _); [eauto|].
    destruct (if typeof_object _ then _ else _) as [[| |e] w']; eauto.
    apply IH. apply indexOf_bound in Hb. unfold sliceFrom.
    rewrite length_skipn. simpl in Hb. lia.
  - destruct (bufferIsDone buffer); eauto.
Qed.

Lemma on_chunk_total (buffer decoded : jsstring) (w : world) :
  exists r, on_chunk JSON_parse mode_ onDone_ buffer decoded w = Some r.
Proof.
  unfold on_chunk. destruct (bufferIsDone _); [eauto|].
  apply while_true_total. lia.
Qed.

Lemma start_total (source : list item) :
  forall buffer w,
    exists r, start JSON_parse mode_ onDone_ source buffer w = Some r.
Proof.
  induction source as [|[decoded|] source IH]; intros buffer w; cbn [start].
  - eauto.
  - destruct (on_chunk_total buffer decoded w) as [[[k w'] b'] ->].
    destruct k; eauto.
  - apply IH.
Qed.

(** ** closeController *)

Lemma open_can (w : world) : open w -> canCloseOrEnqueue (ctrl w) = true.
Proof.
  intros [Hs Hc]. unfold canCloseOrEnqueue, is_readable. now rewrite Hs, Hc.
Qed.

(** On an open controller [closeController] closes exactly when the desired
    size is truthy, then runs the hook. *)
Lemma closeController_open (w : world) :
  open w ->
  exists c,
    closeController onDone_ w
    = (hook_completion onDone_,
       {| ctrl := c; log := log w ++ close_part w ++ done_part onDone_ |})
    /\ (if size_truthy (desiredSize (ctrl w))
        then close (ctrl w) = inr c else c = ctrl w).
Proof.
  intros Hopen. pose proof (open_can w Hopen) as Hcan.
  unfold closeController, close_part, close, record. rewrite Hcan.
  destruct w as [c l]. cbn [ctrl log] in *.
  destruct (size_truthy (desiredSize c));
    destruct onDone_ as [[e|]|]; cbn [ctrl log done_part hook_completion];
    eexists; (split; [|reflexivity]);
    rewrite ?app_nil_r, <- ?app_assoc; reflexivity.
Qed.

Lemma close_and_return_open (w : world) :
  open w ->
  exists c,
    close_and_return onDone_ w
    = (match onDone_ with Some (Some e) => Throw e | _ => Return end,
       {| ctrl := c; log := log w ++ close_part w ++ done_part onDone_ |})
    /\ (if size_truthy (desiredSize (ctrl w))
        then close (ctrl w) = inr c else c = ctrl w).
Proof.
  intros Hopen. destruct (closeController_open w Hopen) as (c & Heq & Hc).
  exists c. split; [|exact Hc].
  unfold close_and_return. rewrite Heq.
  destruct onDone_ as [[e|]|]; reflexivity.
Qed.

Lemma closing_close_part (w : world) : closing (close_part w).
Proof.
  unfold closing, close_part. destruct (size_truthy _); auto.
Qed.

Lemma close_and_return_tail (w w' : world) (k : completion) :
  open w -> close_and_return onDone_ w = (k, w') ->
  k <> Normal /\ exists tl, log w' = log w ++ tl /\ tail onDone_ k tl.
Proof.
  intros Hopen Heq.
  destruct (close_and_return_open w Hopen) as (c & Heq' & _).
  rewrite Heq' in Heq. injection Heq as <- <-. cbn [log].
  pose proof (closing_close_part w) as Hcl.
  destruct onDone_ as [[e|]|] eqn:Hd; (split; [discriminate|]);
    eexists; (split; [reflexivity|]).
  - cbn [done_part]. now apply tail_hook.
  - now apply tail_return.
  - now apply tail_return.
Qed.

(** ** One event *)

Lemma for_choices_tail (w : world) :
  open w ->
  forall choices k w',
    for_choices mode_ onDone_ choices w = (k, w') ->
    (k = Normal /\ w' = w)
    \/ (k <> Normal /\ exists tl, log w' = log w ++ tl /\ tail onDone_ k tl).
Proof.
  intros Hopen. induction choices as [|choice rest IH]; intros k w'; cbn [for_choices].
  - intros [= <- <-]. now left.
  - destruct (is_string _ (units "stop")).
    + intros H. right. now apply close_and_return_tail.
    + destruct (_ && _).
      * intros [= <- <-]. right. split; [discriminate|].
        exists []. rewrite app_nil_r. split; [reflexivity|constructor].
      * apply IH.
Qed.

Lemma check_choices_tail (parsed : json) (w w' : world) (k : completion) :
  open w ->
  check_choices mode_ onDone_ parsed w = (k, w') ->
  (k = Normal /\ w' = w)
  \/ (k <> Normal /\ exists tl, log w' = log w ++ tl /\ tail onDone_ k tl).
Proof.
  intros Hopen. unfold check_choices.
  destruct (truthy _); [|intros [= <- <-]; now left].
  destruct (prop parsed (units "choices")) as [[]|];
    try (intros [= <- <-]; right; split; [discriminate|];
         exists []; rewrite app_nil_r; split; [reflexivity|constructor]).
  - intros [= <- <-]; now left.
  - now apply for_choices_tail.
Qed.

Lemma check_error_cases (parsed : json) (w w' : world) (k : completion) :
  check_error parsed w = (k, w') ->
  (k = Normal /\ w' = w)
  \/ (k = Normal /\ is_readable (ctrl w') = false
      /\ exists d, log w' = log w ++ [AError d])
  \/ (exists e, k = Throw e /\ w' = w).
Proof.
  unfold check_error.
  destruct (hasOwnProperty parsed (units "error")) as [e|[|]].
  - intros [= <- <-]. right; right. eauto.
  - assert (forall d,
      is_readable (ctrl (record (AError d) (error (Upstream d) (ctrl w)) w)) = false)
      as Hd.
    { intros d. cbn. unfold error, is_readable.
      destruct (state (ctrl w)) eqn:Hs; cbn; rewrite ?Hs; reflexivity. }
    destruct (prop parsed (units "error")) as [[]|];
      try (intros [= <- <-]; right; left;
           split; [reflexivity|split; [apply Hd|eexists; reflexivity]]).
    intros [= <- <-]. right; right. eauto.
  - intros [= <- <-]. now left.
Qed.

Lemma send_open (jsonString : jsstring) (w : world) :
  open w ->
  exists w', send jsonString w = (Normal, w')
             /\ open w' /\ log w' = log w ++ [AEnqueue jsonString].
Proof.
  intros Hopen. pose proof (open_can w Hopen) as Hcan.
  unfold send, enqueue. rewrite Hcan. destruct Hopen as [Hs Hc].
  destruct (readRequests (ctrl w)); eexists; (split; [reflexivity|]);
    (split; [split; cbn; assumption | reflexivity]).
Qed.

Lemma send_refused (jsonString : jsstring) (w : world) :
  is_readable (ctrl w) = false ->
  send jsonString w = (Throw (TypeError InvalidState), w).
Proof.
  intros H. unfold send, enqueue, canCloseOrEnqueue. rewrite H.
  now rewrite andb_false_r.
Qed.

Lemma on_object_tail (jsonString : jsstring) (parsed : json) (w w' : world)
  (k : completion) :
  open w ->
  on_object mode_ onDone_ jsonString parsed w = (k, w') ->
  exists fs tl,
    log w' = log w ++ map AEnqueue fs ++ tl /\ tail onDone_ k tl
    /\ (k = Normal -> open w').
Proof.
  intros Hopen. unfold on_object.
  destruct (check_choices mode_ onDone_ parsed w) as [k1 w1] eqn:H1.
  destruct (check_choices_tail _ _ _ _ Hopen H1)
    as [[-> ->] | [Hk (tl & Hlog & Htl)]]; clear H1.
  - destruct (check_error parsed w) as [k2 w2] eqn:H2.
    apply check_error_cases in H2
      as [[-> ->] | [(-> & Hr & d & Hlog) | (e & -> & ->)]].
    + destruct (send_open jsonString w Hopen) as (w3 & -> & Ho & Hlog).
      intros [= <- <-]. exists [jsonString], [].
      rewrite app_nil_r. repeat split; [exact Hlog|constructor|apply Ho..].
    + rewrite (send_refused jsonString w2 Hr). intros [= <- <-].
      exists [], [AError d]. repeat split; [exact Hlog|constructor|discriminate..].
    + intros [= <- <-]. exists [], []. rewrite app_nil_r.
      repeat split; [constructor|discriminate..].
  - destruct k1; [congruence| |]; intros [= <- <-];
      exists [], tl; (repeat split; [exact Hlog|exact Htl|discriminate..]).
Qed.

(** ** The loop and the run *)

Lemma while_true_tail :
  forall fuel buffer w k w' buffer',
    open w ->
    while_true JSON_parse mode_ onDone_ fuel buffer w = Some (k, w', buffer') ->
    exists fs tl,
      log w' = log w ++ map AEnqueue fs ++ tl /\ tail onDone_ k tl
      /\ (k = Normal -> open w').
Proof.
  induction fuel as [|fuel IH]; intros buffer w k w' buffer' Hopen; [discriminate|].
  cbn [while_true].
  assert (forall k w', close_and_return onDone_ w = (k, w') ->
            exists fs tl, log w' = log w ++ map AEnqueue fs ++ tl
                          /\ tail onDone_ k tl /\ (k = Normal -> open w'))
    as Hclose.
  { intros k0 w0 H.
    destruct (close_and_return_tail _ _ _ Hopen H) as [Hk (tl & Hlog & Htl)].
    exists [], tl. repeat split; [exact Hlog|exact Htl|congruence..]. }
  destruct (indexOf LFLF buffer) as [boundary|].
  - destruct (bufferIsDone _).
    + intros [= H <-]. eapply Hclose; eauto.
    + destruct (if typeof_object _ then _ else _) as [k1 w1] eqn:H1.
      assert (exists fs tl, log w1 = log w ++ map AEnqueue fs ++ tl
                            /\ tail onDone_ k1 tl /\ (k1 = Normal -> open w1))
        as (fs1 & tl1 & Hlog1 & Htl1 & Ho1).
      { destruct (typeof_object _).
        - eapply on_object_tail; eauto.
        - injection H1 as <- <-. exists [], []. rewrite app_nil_r.
          repeat split; [constructor|apply Hopen..]. }
      destruct k1.
      * intros H.
        destruct (IH _ _ _ _ _ (Ho1 eq_refl) H) as (fs2 & tl2 & Hlog2 & Htl2 & Ho2).
        inversion Htl1; subst tl1. rewrite app_nil_r in Hlog1.
        exists (fs1 ++ fs2), tl2. rewrite Hlog2, Hlog1, map_app, <- !app_assoc.
        auto.
      * intros [= <- <- <-]. eauto.
      * intros [= <- <- <-]. eauto.
  - destruct (bufferIsDone buffer).
    + intros [= H <-]. eapply Hclose; eauto.
    + intros [= <- <- <-]. exists [], []. rewrite app_nil_r.
      repeat split; [constructor|apply Hopen..].
Qed.

Lemma on_chunk_tail (buffer decoded : jsstring) (w w' : world) (k : completion)
  (buffer' : jsstring) :
  open w ->
  on_chunk JSON_parse mode_ onDone_ buffer decoded w = Some (k, w', buffer') ->
  exists fs tl,
    log w' = log w ++ map AEnqueue fs ++ tl /\ tail onDone_ k tl
    /\ (k = Normal -> open w').
Proof.
  intros Hopen. unfold on_chunk. destruct (bufferIsDone _).
  - intros [= H <-].
    destruct (close_and_return_tail _ _ _ Hopen H) as [Hk (tl & Hlog & Htl)].
    exists [], tl. repeat split; [exact Hlog|exact Htl|congruence..].
  - now apply while_true_tail.
Qed.

Lemma read_open (w : world) :
  open w -> open {| ctrl := read (ctrl w); log := log w |}.
Proof.
  intros [Hs Hc]. unfold open, read. cbn. rewrite Hs.
  destruct (queue (ctrl w)); cbn; rewrite ?Hc; auto.
Qed.

Lemma finish_shape (k : completion) (w : world) (st : status) (w' : world) :
  Some (finish k w) = Some (st, w') -> completion_of st = k /\ log w' = log w.
Proof.
  destruct k; intros [= <- <-]; auto.
Qed.

Lemma start_shape (source : list item) :
  forall buffer w st w',
    open w ->
    start JSON_parse mode_ onDone_ source buffer w = Some (st, w') ->
    exists fs tl,
      log w' = log w ++ map AEnqueue fs ++ tl
      /\ tail onDone_ (completion_of st) tl.
Proof.
  induction source as [|[decoded|] source IH]; intros buffer w st w' Hopen;
    cbn [start].
  - intros H. apply finish_shape in H as [-> ->].
    exists [], []. rewrite app_nil_r. split; [reflexivity|constructor].
  - destruct (on_chunk JSON_parse mode_ onDone_ buffer decoded w)
      as [[[k w1] b1]|] eqn:Hc; [|discriminate].
    destruct (on_chunk_tail _ _ _ _ _ _ Hopen Hc) as (fs1 & tl1 & Hlog1 & Htl1 & Ho1).
    destruct k.
    + intros H.
      destruct (IH _ _ _ _ (Ho1 eq_refl) H) as (fs2 & tl2 & Hlog2 & Htl2).
      inversion Htl1; subst tl1. rewrite app_nil_r in Hlog1.
      exists (fs1 ++ fs2), tl2. rewrite Hlog2, Hlog1, map_app, <- !app_assoc.
      auto.
    + intros H. apply finish_shape in H as [-> ->]. eauto.
    + intros H. apply finish_shape in H as [-> ->]. eauto.
  - intros H. exact (IH _ _ _ _ (read_open w Hopen) H).
Qed.

(** Once [start] has returned or thrown, what the source still holds is
    never looked at. *)
Lemma start_app (source more : list item) :
  forall buffer w st w',
    start JSON_parse mode_ onDone_ source buffer w = Some (st, w') ->
    st <> Exhausted ->
    start JSON_parse mode_ onDone_ (source ++ more) buffer w = Some (st, w').
Proof.
  induction source as [|[decoded|] source IH]; intros buffer w st w'; cbn [start app].
  - intros [= <- <-]. congruence.
  - destruct (on_chunk JSON_parse mode_ onDone_ buffer decoded w)
      as [[[k w1] b1]|]; [|discriminate].
    destruct k; auto.
  - apply IH.
Qed.

End Facts.

End FramerFacts.

(* ================================================================== *)
(** * The backoff executor under a permanent rate limit *)

Section PermanentRateLimit.

Import Backoff BackoffFacts Samples.

Lemma always_429_rate_limited (k : nat) : rate_limited (always_429 k).
Proof.
  exists {| ok := false; json_ := Parsed body_429 |}, body_429.
  repeat split. eexists. split; [reflexivity|].
  right. eexists. split; reflexivity.
Qed.

Lemma policy_2_10_hook_returns : hook_returns policy_2_10.
Proof. intros h H. discriminate H. Qed.

(** C3. Under the policy [maxRetries = 2], [delay = 10] and a fetch that is
    answered [{"error":{"code":"429"}}] with [ok = false] at every call, the
    executor retries twice, sleeping 10 and 20, and then rethrows the error
    of the last attempt, whose message is ["RATE_LIMIT_REACHED"]: the final
    [throw new Error("Max retries reached.")] is not reached. *)
Theorem exhausted_retries_rethrow_rate_limit :
  Reference.JSON_parse (wire "{'error':{'code':'429'}}") = Some body_429
  /\ fetchWithBackoff (Some always_429) policy_2_10
     = Some (Thrown (Error (units "RATE_LIMIT_REACHED")),
             [Fetched; Logged 10; Notified 0 10; Slept 10;
              Fetched; Logged 20; Notified 1 20; Slept 20;
              Fetched])
  /\ message (Error (units "RATE_LIMIT_REACHED"))
     <> Some (units "Max retries reached.").
Proof.
  split; [vm_compute; reflexivity|].
  split; [vm_compute; reflexivity|].
  vm_compute. discriminate.
Qed.





End PermanentRateLimit.

(* ================================================================== *)
(** * The event framer: logs, terminal actions, the hook *)

Module LogFacts.

Import Streams Framer.

Lemma frames_app (l1 l2 : list action) : frames (l1 ++ l2) = frames l1 ++ frames l2.
Proof. unfold frames. apply flat_map_app. Qed.

Lemma frames_map (fs : list jsstring) : frames (map AEnqueue fs) = fs.
Proof.
  induction fs as [|f fs IH]; [reflexivity|]. cbn. f_equal. exact IH.
Qed.

Lemma frames_terminal (l : list action) :
  Forall (fun a => terminal a = true) l -> frames l = [].
Proof.
  induction 1 as [|a l Ha _ IH]; [reflexivity|].
  destruct a; try discriminate; exact IH.
Qed.

Lemma onDone_calls_app (l1 l2 : list action) :
  onDone_calls (l1 ++ l2) = (onDone_calls l1 + onDone_calls l2)%nat.
Proof. unfold onDone_calls. now rewrite filter_app, length_app. Qed.

Lemma closes_app (l1 l2 : list action) :
  closes (l1 ++ l2) = (closes l1 + closes l2)%nat.
Proof. unfold closes. now rewrite filter_app, length_app. Qed.

Lemma onDone_calls_map (fs : list jsstring) : onDone_calls (map AEnqueue fs) = O.
Proof. induction fs as [|f fs IH]; [reflexivity|exact IH]. Qed.

Lemma closes_map (fs : list jsstring) : closes (map AEnqueue fs) = O.
Proof. induction fs as [|f fs IH]; [reflexivity|exact IH]. Qed.

Lemma onDone_calls_closing (cl : list action) : closing cl -> onDone_calls cl = O.
Proof. intros [-> | ->]; reflexivity. Qed.

Lemma closes_closing (cl : list action) : closing cl -> (closes cl <= 1)%nat.
Proof. intros [-> | ->]; cbn; lia. Qed.

Lemma onDone_calls_done_part (onDone_ : option DoneHook) :
  onDone_calls (done_part onDone_)
  = match onDone_ with Some _ => 1%nat | None => O end.
Proof. destruct onDone_; reflexivity. Qed.

Lemma closes_done_part (onDone_ : option DoneHook) : closes (done_part onDone_) = O.
Proof. destruct onDone_; reflexivity. Qed.

Section Tails.

Variable onDone_ : option DoneHook.

Lemma tail_terminal (k : completion) (tl : list action) :
  tail onDone_ k tl -> Forall (fun a => terminal a = true) tl.
Proof.
  assert (forall cl, closing cl -> Forall (fun a => terminal a = true) cl) as Hcl.
  { intros cl [-> | ->]; repeat constructor. }
  destruct 1; try (repeat constructor; fail).
  - apply Forall_app. split; [auto|]. destruct onDone_; repeat constructor.
  - apply Forall_app. split; [auto|]. repeat constructor.
Qed.

Lemma tail_onDone_calls (k : completion) (tl : list action) :
  tail onDone_ k tl -> (onDone_calls tl <= 1)%nat.
Proof.
  destruct 1; cbn; try lia;
    rewrite onDone_calls_app, onDone_calls_closing by assumption.
  - rewrite onDone_calls_done_part. destruct onDone_; lia.
  - cbn. lia.
Qed.

Lemma tail_closes (k : completion) (tl : list action) :
  tail onDone_ k tl -> (closes tl <= 1)%nat.
Proof.
  destruct 1 as [|cl Hcl| | |cl e Hcl _]; cbn; try lia; rewrite closes_app.
  - rewrite closes_done_part. apply closes_closing in Hcl. lia.
  - apply closes_closing in Hcl. cbn. lia.
Qed.

Lemma tail_Normal (tl : list action) : tail onDone_ Normal tl -> tl = [].
Proof. now inversion 1. Qed.

Lemma tail_Return (tl : list action) :
  tail onDone_ Return tl -> exists cl, closing cl /\ tl = cl ++ done_part onDone_.
Proof. inversion 1; subst. eauto. Qed.

(** An error signal is the whole tail, and the run then failed on the
    refused enqueue. *)
Lemma tail_AError (k : completion) (tl : list action) (d : value) :
  tail onDone_ k tl -> In (AError d) tl ->
  tl = [AError d] /\ k = Throw (TypeError InvalidState).
Proof.
  assert (forall cl, closing cl -> ~ In (AError d) cl) as Hcl.
  { intros cl [-> | ->] H; cbn in H; intuition discriminate. }
  destruct 1 as [|cl Hc| |d'|cl e Hc _]; intros Hin.
  - destruct Hin.
  - apply in_app_or in Hin as [Hin|Hin]; [now apply Hcl in Hin|].
    destruct onDone_; cbn in Hin; [destruct Hin as [H|[]]; discriminate|destruct Hin].
  - destruct Hin.
  - destruct Hin as [[= ->]|[]]. auto.
  - apply in_app_or in Hin as [Hin|Hin]; [now apply Hcl in Hin|].
    destruct Hin as [H|[]]; discriminate.
Qed.

End Tails.

(** A terminal action of a log lies in its tail. *)
Lemma split_at_terminal (fs : list jsstring) :
  forall tl before a after,
    map AEnqueue fs ++ tl = before ++ a :: after ->
    terminal a = true ->
    exists pre, tl = pre ++ a :: after.
Proof.
  induction fs as [|f fs IH]; intros tl before a after Heq Ha.
  - exists before. exact Heq.
  - destruct before as [|b before]; cbn in Heq.
    + injection Heq as <- _. discriminate.
    + injection Heq as _ Heq. now apply IH in Heq.
Qed.

Lemma in_map_AEnqueue (fs : list jsstring) (a : action) :
  In a (map AEnqueue fs) -> terminal a = false.
Proof.
  intros H. apply in_map_iff in H as (f & <- & _). reflexivity.
Qed.

End LogFacts.

(* ================================================================== *)
(** * The event framer: the order of its signals *)

Section Signals.

Import Streams Framer FramerFacts LogFacts Samples.

Lemma fresh_open : open {| ctrl := fresh; log := [] |}.
Proof. split; reflexivity. Qed.

(** Every run ends, and its log is frames followed by the tail of its end. *)
Lemma EventStream_shape
  (JSON_parse : jsstring -> option json) (stream : list item)
  (options : OpenAIStreamOptions) :
  exists st w,
    EventStream JSON_parse stream options = Some (st, w)
    /\ shape (onDone options) st (log w).
Proof.
  unfold EventStream.
  destruct (start_total JSON_parse
              match mode options with Some m => m | None => tokens end
              (onDone options) stream [] {| ctrl := fresh; log := [] |})
    as [[st w] Hrun].
  exists st, w. split; [exact Hrun|].
  destruct (start_shape _ _ _ _ _ _ _ _ fresh_open Hrun) as (fs & tl & Hlog & Htl).
  exists fs, tl. split; [exact Hlog|exact Htl].
Qed.

(** C6. In the log of every run no frame follows a terminal action (close,
    error signal, completion hook); an error signal is the last action of
    its run, which then fails on the refused enqueue of the erroring
    payload; and once [start] has returned or thrown, nothing the source
    still delivers changes the outcome. *)
Theorem no_frame_after_done_or_error
  (JSON_parse : jsstring -> option json) (stream : list item)
  (options : OpenAIStreamOptions) :
  exists st w,
    EventStream JSON_parse stream options = Some (st, w)
    /\ (forall before a after,
          log w = before ++ a :: after -> terminal a = true ->
          frames after = [])
    /\ (forall d, In (AError d) (log w) ->
          st = Failed (TypeError InvalidState)
          /\ exists fs, log w = map AEnqueue fs ++ [AError d])
    /\ (forall more, st <> Exhausted ->
          EventStream JSON_parse (stream ++ more) options = Some (st, w)).
Proof.
  destruct (EventStream_shape JSON_parse stream options)
    as (st & w & Hrun & fs & tl & Hlog & Htl).
  exists st, w. split; [exact Hrun|]. repeat split.
  - intros before a after Heq Ha. rewrite Hlog in Heq.
    destruct (split_at_terminal fs tl before a after Heq Ha) as (pre & ->).
    apply tail_terminal in Htl. apply Forall_app in Htl as [_ Htl].
    apply frames_terminal. now inversion Htl.
  - rewrite Hlog in H. apply in_app_or in H as [H|H];
      [apply in_map_AEnqueue in H; discriminate|].
    destruct (tail_AError _ _ _ _ Htl H) as [_ Hk].
    destruct st; try discriminate. cbn in Hk. congruence.
  - rewrite Hlog in H. apply in_app_or in H as [H|H];
      [apply in_map_AEnqueue in H; discriminate|].
    destruct (tail_AError _ _ _ _ Htl H) as [-> _]. now exists fs.
  - intros more Hst. unfold EventStream in *. now apply start_app.
Qed.



End Signals.

(* ================================================================== *)
(** * The event framer: candidates that do not parse *)

Section Unparsable.

Import Streams Framer FramerFacts Samples.

(** Whatever the parser, a candidate it rejects leaves [parsed] at [null],
    which passes [typeof parsed === "object"] and has no [hasOwnProperty]:
    the turn of the loop throws, and the candidate has left the buffer. *)
Lemma unparsable_candidate_throws
  (JSON_parse : jsstring -> option json) (m : StreamMode)
  (onDone_ : option DoneHook) (fuel : nat) (buffer : jsstring)
  (boundary : nat) (w : world) :
  indexOf LFLF buffer = Some boundary ->
  bufferIsDone (sliceFrom (boundary + 2) buffer) = false ->
  JSON_parse (trim (slice 5 boundary buffer)) = None ->
  while_true JSON_parse m onDone_ (S fuel) buffer w
  = Some (Throw null_hasOwnProperty, w, sliceFrom (boundary + 2) buffer).
Proof.
  intros Hb Hdone Hparse. cbn [while_true]. rewrite Hb, Hdone, Hparse.
  reflexivity.
Qed.

(** C1. The chunk [data: {"a":\n\n] holds the candidate [{"a":], which does
    not parse: the stream fails with the [TypeError] of
    [null.hasOwnProperty], and an event that follows is never framed. *)
Theorem unparsable_candidate_fails_the_stream :
  Reference.JSON_parse (wire "{'a':") = None
  /\ EventStream Reference.JSON_parse [Chunk (wire "data: {'a':$$")] hook_only
     = Some (failed_at_once null_hasOwnProperty)
  /\ EventStream Reference.JSON_parse
       [Chunk (wire "data: {'a':$$"); Chunk (wire "data: {'b':2}$$")] hook_only
     = Some (failed_at_once null_hasOwnProperty).
Proof. repeat split; vm_compute; reflexivity. Qed.

(** C2. The payload [{"a":\n\n1}] is valid JSON with a blank line inside.
    Delivered as [data: {"a":\n\n] and [1}\n\n], its first part is taken out
    of the buffer as a candidate before it is parsed, nothing of it stays
    pending, the stream fails, and no frame is ever emitted. *)
Theorem split_payload_is_dropped :
  Reference.JSON_parse (wire "{'a':$$1}") = Some (JObj [(units "a", JNum 1)])
  /\ on_chunk Reference.JSON_parse tokens (Some None) [] (wire "data: {'a':$$") world0
     = Some (Throw null_hasOwnProperty, world0, [])
  /\ EventStream Reference.JSON_parse split_payload hook_only
     = Some (failed_at_once null_hasOwnProperty)
  /\ frames (log (snd (failed_at_once null_hasOwnProperty))) = [].
Proof. repeat split; vm_compute; reflexivity. Qed.

End Unparsable.

(* ================================================================== *)
(** * The event framer: the termination check *)

Section Termination.

Import Streams Framer FramerFacts Samples.




End Termination.

(* ================================================================== *)
(** * The event framer: finish reasons *)

Section FinishReasons.

Import Streams Framer FramerFacts Samples.

Lemma close_and_return_stops (onDone_ : option DoneHook) (w : world) :
  fst (close_and_return onDone_ w) <> Normal.
Proof.
  unfold close_and_return, closeController.
  destruct (size_truthy _); [destruct (close (ctrl w)) as [e0|c0]|];
    destruct onDone_ as [[e|]|]; discriminate.
Qed.

Lemma length_is_not_stop (x : value) :
  is_string x (units "length") = true -> is_string x (units "stop") = false.
Proof.
  destruct x as [[]|]; cbn [is_string]; try discriminate.
  intros H. apply BackoffFacts.eqb_eq in H as ->. reflexivity.
Qed.

(** The choices before the first one that decides are passed over. *)
Lemma for_choices_skip (m : StreamMode) (onDone_ : option DoneHook)
  (pre rest : list json) (w : world) :
  Forall (undecided m) pre ->
  for_choices m onDone_ (pre ++ rest) w = for_choices m onDone_ rest w.
Proof.
  induction 1 as [|c pre [Hstop Hlen] _ IH]; [reflexivity|].
  cbn [app for_choices]. rewrite Hstop.
  destruct m; cbn [andb]; [exact IH|].
  rewrite (Hlen eq_refl). exact IH.
Qed.

Lemma for_choices_decides (m : StreamMode) (onDone_ : option DoneHook)
  (choice : json) (post : list json) (w : world) (v : verdict) :
  decides m choice v ->
  for_choices m onDone_ (choice :: post) w = verdict_result onDone_ w v.
Proof.
  destruct v; cbn [decides for_choices verdict_result].
  - intros ->. reflexivity.
  - intros [-> H]. rewrite (length_is_not_stop _ H), H. reflexivity.
Qed.

(** In token mode a choice with the reason ["length"] throws unless a
    choice with the reason ["stop"] comes before it. *)
Lemma for_choices_length (onDone_ : option DoneHook)
  (pre : list json) (choice : json) (post : list json) (w : world) :
  Forall (fun c => is_string (prop c finish_reason) (units "stop") = false) pre ->
  is_string (prop choice finish_reason) (units "length") = true ->
  for_choices tokens onDone_ (pre ++ choice :: post) w
  = (Throw (OpenAIError MAX_TOKENS), w).
Proof.
  intros Hpre Hlen. induction Hpre as [|c pre Hstop _ IH]; cbn [app for_choices].
  - now rewrite (length_is_not_stop _ Hlen), Hlen.
  - rewrite Hstop. cbn [andb].
    destruct (is_string (prop c finish_reason) (units "length")); auto.
Qed.

(** A turn of the loop on an event that parses and whose choices end the
    run. *)
Lemma while_true_choices
  (JSON_parse : jsstring -> option json) (m : StreamMode)
  (onDone_ : option DoneHook) (fuel : nat) (buffer : jsstring)
  (boundary : nat) (w : world) (parsed : json) (choices : list json)
  (stop : completion * world) :
  indexOf LFLF buffer = Some boundary ->
  bufferIsDone (sliceFrom (boundary + 2) buffer) = false ->
  JSON_parse (trim (slice 5 boundary buffer)) = Some parsed ->
  prop parsed (units "choices") = Some (JArr choices) ->
  for_choices m onDone_ choices w = stop ->
  fst stop <> Normal ->
  while_true JSON_parse m onDone_ (S fuel) buffer w
  = Some (stop, sliceFrom (boundary + 2) buffer).
Proof.
  intros Hb Hdone Hparse Hprop Hfor Hstop.
  cbn [while_true]. rewrite Hb, Hdone, Hparse.
  destruct parsed; try discriminate Hprop. cbn [typeof_object].
  unfold on_object, check_choices. rewrite Hprop. cbn [truthy]. rewrite Hfor.
  destruct stop as [[| |e] w']; [now elim Hstop|reflexivity..].
Qed.

(** C5, as stated, fails: in token mode the event with the choices
    ["length"] then ["stop"] has an element whose reason is ["stop"], and
    the run fails with [MAX_TOKENS] instead of completing. *)
Lemma length_before_stop_fails :
  (exists c1 c2,
     Reference.JSON_parse (trim (slice 5 71 length_then_stop))
     = Some (JObj [(units "choices", JArr [c1; c2])])
     /\ is_string (prop c2 finish_reason) (units "stop") = true)
  /\ EventStream Reference.JSON_parse [Chunk length_then_stop] token_mode
     = Some (failed_at_once (OpenAIError MAX_TOKENS)).
Proof.
  split; [|vm_compute; reflexivity].
  exists (choice_with (JStr (units "length"))), (choice_with (JStr (units "stop"))).
  split; vm_compute; reflexivity.
Qed.

(** C5, amended. For an event that parses and has a [choices] array, the
    first element, in the order of the array, whose reason is ["stop"], or
    ["length"] in token mode, decides: on ["stop"] the framer runs
    [closeController] and returns, on ["length"] it throws the [MAX_TOKENS]
    error with the output untouched; the loop is left at once, so no frame
    follows. *)
Theorem first_deciding_choice_wins
  (JSON_parse : jsstring -> option json) (m : StreamMode)
  (onDone_ : option DoneHook) (fuel : nat) (buffer : jsstring)
  (boundary : nat) (w : world) (parsed : json)
  (pre : list json) (choice : json) (post : list json) (v : verdict) :
  indexOf LFLF buffer = Some boundary ->
  bufferIsDone (sliceFrom (boundary + 2) buffer) = false ->
  JSON_parse (trim (slice 5 boundary buffer)) = Some parsed ->
  prop parsed (units "choices") = Some (JArr (pre ++ choice :: post)) ->
  Forall (undecided m) pre ->
  decides m choice v ->
  while_true JSON_parse m onDone_ (S fuel) buffer w
  = Some (verdict_result onDone_ w v, sliceFrom (boundary + 2) buffer).
Proof.
  intros Hb Hdone Hparse Hprop Hpre Hv.
  eapply while_true_choices; eauto.
  - rewrite for_choices_skip by assumption. now apply for_choices_decides.
  - destruct v; [apply close_and_return_stops|discriminate].
Qed.

Lemma first_deciding_choice_wins_witness :
  while_true Reference.JSON_parse tokens (Some None) 1 null_then_stop world0
  = Some (verdict_result (Some None) world0 Stop,
          sliceFrom (67 + 2) null_then_stop).
Proof.
  apply (first_deciding_choice_wins Reference.JSON_parse tokens (Some None) O
           null_then_stop 67%nat world0
           (JObj [(units "choices",
                   JArr [choice_with JNull; choice_with (JStr (units "stop"))])])
           [choice_with JNull] (choice_with (JStr (units "stop"))) [] Stop).
  - vm_compute; reflexivity.
  - vm_compute; reflexivity.
  - vm_compute; reflexivity.
  - vm_compute; reflexivity.
  - repeat constructor.
  - vm_compute; reflexivity.
Defined.



End FinishReasons.

(* ================================================================== *)
(** * The backoff executor: every run *)

Module BackoffRunFacts.

Import Backoff BackoffFacts BackoffRuns.

Local Open Scope nat_scope.

Lemma retry_trace_steps (n : nat) :
  forall i d, retry_trace n i d = retry_steps n i d ++ [Fetched].
Proof.
  induction n as [|n IH]; intros i d; [reflexivity|].
  cbn [retry_trace retry_steps app]. now rewrite IH.
Qed.

Lemma fetches_app (t1 t2 : list effect) :
  fetches (t1 ++ t2) = (fetches t1 + fetches t2)%nat.
Proof. unfold fetches. now rewrite filter_app, length_app. Qed.

Lemma notifications_app (t1 t2 : list effect) :
  notifications (t1 ++ t2) = (notifications t1 + notifications t2)%nat.
Proof. unfold notifications. now rewrite filter_app, length_app. Qed.

Lemma sleeps_app (t1 t2 : list effect) : sleeps (t1 ++ t2) = sleeps t1 ++ sleeps t2.
Proof. unfold sleeps. apply flat_map_app. Qed.

Lemma notified_app (t1 t2 : list effect) :
  notified (t1 ++ t2) = notified t1 ++ notified t2.
Proof. unfold notified. apply flat_map_app. Qed.

Lemma fetches_retry_steps (n : nat) : forall i d, fetches (retry_steps n i d) = n.
Proof.
  induction n as [|n IH]; intros i d; [reflexivity|].
  unfold fetches in *. cbn. now rewrite IH.
Qed.

Lemma notifications_retry_steps (n : nat) :
  forall i d, notifications (retry_steps n i d) = n.
Proof.
  induction n as [|n IH]; intros i d; [reflexivity|].
  unfold notifications in *. cbn. now rewrite IH.
Qed.

Lemma delay_at_succ (d : Z) (j : nat) : delay_at (d * 2) j = delay_at d (S j).
Proof.
  unfold delay_at. rewrite Nat2Z.inj_succ, Z.pow_succ_r by lia. lia.
Qed.

Lemma delay_at_0 (d : Z) : delay_at d 0 = d.
Proof. unfold delay_at. cbn. lia. Qed.

Lemma sleeps_retry_steps (n : nat) :
  forall i d, sleeps (retry_steps n i d) = map (delay_at d) (seq 0 n).
Proof.
  induction n as [|n IH]; intros i d; [reflexivity|].
  change (sleeps (retry_steps (S n) i d))
    with (d :: sleeps (retry_steps n (i + 1)%Z (d * 2)%Z)).
  rewrite IH. cbn [seq map]. rewrite delay_at_0. f_equal.
  rewrite <- seq_shift, map_map. apply map_ext. intros j. apply delay_at_succ.
Qed.

Lemma notified_retry_steps (n : nat) :
  forall i d,
    notified (retry_steps n i d)
    = map (fun j => ((i + Z.of_nat j)%Z, delay_at d j)) (seq 0 n).
Proof.
  induction n as [|n IH]; intros i d; [reflexivity|].
  change (notified (retry_steps (S n) i d))
    with ((i, d) :: notified (retry_steps n (i + 1)%Z (d * 2)%Z)).
  rewrite IH. cbn [seq map]. rewrite delay_at_0, Z.add_0_r. f_equal.
  rewrite <- seq_shift, map_map. apply map_ext. intros j.
  rewrite delay_at_succ. f_equal. lia.
Qed.

Section AnyRun.

Variable fetch : Fetch.
Variable N : Z.
Variable hook : Hook.

Lemma attempt_retryable (k : nat) :
  retryable (fetch k) ->
  exists e, attempt fetch k = inl e /\ message_is e RATE_LIMIT_REACHED = true.
Proof.
  intros [Hlim | (e & Hfail & Hmsg)].
  - exists (Error RATE_LIMIT_REACHED). split; [|apply message_is_Error].
    destruct Hlim as (response & data & Hf & Hok & Hbody & members & -> & Hdecl).
    unfold attempt. rewrite Hf, Hok, Hbody. cbn [negb].
    destruct Hdecl as [Htype | (e & Herr & Hcode)].
    + unfold prop at 1. rewrite Htype. unfold is_string at 1. now rewrite eqb_refl.
    + unfold prop at 2. rewrite Herr. unfold prop_opt, prop. rewrite Hcode.
      unfold is_string at 2. now rewrite eqb_refl, orb_true_r.
  - exists e. split.
    + unfold attempt. destruct Hfail as [e|response e Hok Hbody|response Hok Hbody];
        [reflexivity|now rewrite Hok, Hbody..].
    + unfold message_is. rewrite Hmsg. apply eqb_refl.
Qed.

Lemma attempt_fails_inl (k : nat) (e : exn) :
  attempt_fails (fetch k) e -> attempt fetch k = inl e.
Proof.
  unfold attempt. intros [e'|response e' Hok Hbody|response Hok Hbody];
    [reflexivity|now rewrite Hok, Hbody..].
Qed.

Lemma attempt_handed_back (k : nat) (response : Response) :
  fetch k = Resolved response -> handed_back response ->
  attempt fetch k = inr response.
Proof.
  intros Hf Hback. unfold attempt. rewrite Hf.
  destruct Hback as [Hok | (data & Hbody & Hnull & Htype & Hcode)].
  - now rewrite Hok.
  - destruct (ok response); [reflexivity|]. cbn [negb]. rewrite Hbody.
    rewrite Htype, Hcode. destruct data; try reflexivity. now elim Hnull.
Qed.

(** While the attempts are retryable and the hook returns, the loop does
    its retries and goes on from the next attempt. *)
Lemma loop_retries (k : nat) :
  forall fuel i d calls,
    (forall j, (j < k)%nat -> retryable (fetch (calls + j))) ->
    (forall j, (j < k)%nat -> hook (i + Z.of_nat j)%Z (delay_at d j) = None) ->
    (i + Z.of_nat k <= N)%Z ->
    loop fetch N hook (k + fuel) i d calls
    = match loop fetch N hook fuel (i + Z.of_nat k)%Z (delay_at d k) (calls + k) with
      | Some (o, t) => Some (o, retry_steps k i d ++ t)
      | None => None
      end.
Proof.
  induction k as [|k IH]; intros fuel i d calls Hretry Hhook Hk.
  - cbn [Nat.add retry_steps app]. rewrite Z.add_0_r, Nat.add_0_r, delay_at_0.
    destruct (loop _ _ _ _ _ _ _) as [[o t]|]; reflexivity.
  - cbn [Nat.add loop].
    replace (i <=? N)%Z with true by (symmetry; apply Z.leb_le; lia).
    destruct (attempt_retryable calls) as (e & -> & ->).
    { rewrite <- (Nat.add_0_r calls). apply Hretry. lia. }
    replace (i <? N)%Z with true by (symmetry; apply Z.ltb_lt; lia).
    cbn [andb]. specialize (Hhook O) as Hh0. rewrite Z.add_0_r, delay_at_0 in Hh0.
    rewrite Hh0 by lia.
    rewrite (IH fuel (i + 1)%Z (d * 2)%Z (S calls)).
    + replace (i + 1 + Z.of_nat k)%Z with (i + Z.of_nat (S k))%Z by lia.
      rewrite delay_at_succ. replace (S calls + k)%nat with (calls + S k)%nat by lia.
      destruct (loop _ _ _ _ _ _ _) as [[o t]|]; reflexivity.
    + intros j Hj. replace (S calls + j)%nat with (calls + S j)%nat by lia.
      apply Hretry. lia.
    + intros j Hj. rewrite delay_at_succ.
      replace (i + 1 + Z.of_nat j)%Z with (i + Z.of_nat (S j))%Z by lia.
      apply Hhook. lia.
    + lia.
Qed.

(** The trace of any run that starts at an attempt within the limit. *)
Lemma loop_structure :
  forall fuel i d calls o t,
    (i <= N)%Z ->
    loop fetch N hook fuel i d calls = Some (o, t) ->
    exists n,
      (i + Z.of_nat n <= N)%Z
      /\ (t = retry_steps n i d ++ [Fetched]
          \/ ((i + Z.of_nat n < N)%Z
              /\ t = retry_steps n i d
                     ++ [Fetched; Logged (delay_at d n);
                         Notified (i + Z.of_nat n)%Z (delay_at d n)]
              /\ exists e, o = Thrown e
                           /\ hook (i + Z.of_nat n)%Z (delay_at d n) = Some e)).
Proof.
  induction fuel as [|fuel IH]; intros i d calls o t Hi; [discriminate|].
  cbn [loop].
  replace (i <=? N)%Z with true by (symmetry; apply Z.leb_le; lia).
  destruct (attempt fetch calls) as [error|response].
  - destruct (message_is error RATE_LIMIT_REACHED && (i <? N)%Z) eqn:Hretry.
    + apply andb_true_iff in Hretry as [_ Hlt]. apply Z.ltb_lt in Hlt.
      destruct (hook i d) as [e|] eqn:Hh.
      * intros [= <- <-]. exists O. rewrite Z.add_0_r, delay_at_0.
        split; [lia|]. right. repeat split; [exact Hlt|]. eauto.
      * destruct (loop _ _ _ _ _ _ _) as [[o' t']|] eqn:Hrec; [|discriminate].
        intros [= <- <-].
        assert (i + 1 <= N)%Z as Hi' by lia.
        destruct (IH _ _ _ _ _ Hi' Hrec) as (n & Hn & Hshape).
        exists (S n). split; [lia|]. cbn [retry_steps app].
        replace (i + Z.of_nat (S n))%Z with (i + 1 + Z.of_nat n)%Z by lia.
        rewrite <- delay_at_succ.
        destruct Hshape as [-> | (Hlt' & -> & He)]; [now left|right].
        repeat split; [exact Hlt'|exact He].
    + intros [= <- <-]. exists O. rewrite Z.add_0_r. split; [lia|now left].
  - intros [= <- <-]. exists O. rewrite Z.add_0_r. split; [lia|now left].
Qed.

End AnyRun.

End BackoffRunFacts.

(* ================================================================== *)
(** * The backoff executor: how a run ends *)

Section RunEndings.

Import Backoff BackoffFacts BackoffRuns BackoffRunFacts Samples MoreSamples.

Local Open Scope nat_scope.

Lemma message_is_not (e : exn) (m : jsstring) :
  message e <> Some m -> message_is e m = false.
Proof.
  unfold message_is. destruct (message e) as [m'|]; [|reflexivity].
  intros H. destruct (JS.eqb m' m) eqn:Heq; [|reflexivity].
  apply eqb_eq in Heq. congruence.
Qed.

(** The run of [fetchWithBackoff] after [k] retries, [k] within the limit. *)
Lemma run_after_retries (fetch : Fetch) (options : BackoffOptions) (k : nat) :
  (Z.of_nat k <= maxRetries_of options)%Z ->
  (forall j, j < k -> retryable (fetch j)) ->
  hook_returns_until (onRateLimitReached_of options) (delay_of options) k ->
  exists fuel,
    fetchWithBackoff (Some fetch) options
    = match loop fetch (maxRetries_of options) (onRateLimitReached_of options)
              (S fuel) (Z.of_nat k) (delay_at (delay_of options) k) k with
      | Some (o, t) => Some (o, retry_steps k 0 (delay_of options) ++ t)
      | None => None
      end.
Proof.
  intros Hk Hretry Hhook. unfold fetchWithBackoff.
  exists (S (Z.to_nat (maxRetries_of options)) - k).
  replace (S (S (Z.to_nat (maxRetries_of options))))
    with (k + S (S (Z.to_nat (maxRetries_of options)) - k)) by lia.
  rewrite loop_retries; [reflexivity|exact Hretry| |lia].
  intros j Hj. apply Hhook. exact Hj.
Qed.

Lemma counts_after_retries (k : nat) (d : Z) (last : list effect) :
  fetches (retry_steps k 0 d ++ last) = k + fetches last
  /\ notifications (retry_steps k 0 d ++ last) = k + notifications last
  /\ sleeps (retry_steps k 0 d ++ last) = map (delay_at d) (seq 0 k) ++ sleeps last.
Proof.
  rewrite fetches_app, notifications_app, sleeps_app, fetches_retry_steps,
    notifications_retry_steps, sleeps_retry_steps.
  auto.
Qed.



Lemma failure_after_retries
  (fetch : Fetch) (options : BackoffOptions) (k : nat) (e : exn) :
  (Z.of_nat k <= maxRetries_of options)%Z ->
  (forall j, j < k -> retryable (fetch j)) ->
  hook_returns_until (onRateLimitReached_of options) (delay_of options) k ->
  attempt_fails (fetch k) e ->
  message e <> Some RATE_LIMIT_REACHED \/ Z.of_nat k = maxRetries_of options ->
  exists t,
    fetchWithBackoff (Some fetch) options = Some (Thrown e, t)
    /\ fetches t = k + 1
    /\ notifications t = k
    /\ sleeps t = map (delay_at (delay_of options)) (seq 0 k).
Proof.
  intros Hk Hretry Hhook Hfail Hlast.
  destruct (run_after_retries fetch options k Hk Hretry Hhook) as (fuel & ->).
  cbn [loop].
  replace (Z.of_nat k <=? maxRetries_of options)%Z with true
    by (symmetry; apply Z.leb_le; lia).
  rewrite (attempt_fails_inl fetch k e Hfail).
  assert (message_is e RATE_LIMIT_REACHED
          && (Z.of_nat k <? maxRetries_of options)%Z = false) as ->.
  { destruct Hlast as [Hmsg | Heq].
    - now rewrite (message_is_not _ _ Hmsg).
    - rewrite Heq, Z.ltb_irrefl. apply andb_false_r. }
  eexists. split; [reflexivity|].
  destruct (counts_after_retries k (delay_of options) [Fetched]) as (-> & -> & ->).
  cbn. rewrite app_nil_r. repeat split; lia.
Qed.








(** The trace of every run under a limit that is not negative. *)
Lemma run_structure (fetch : Fetch) (options : BackoffOptions)
  (o : outcome) (t : list effect) :
  (0 <= maxRetries_of options)%Z ->
  fetchWithBackoff (Some fetch) options = Some (o, t) ->
  exists n,
    (Z.of_nat n <= maxRetries_of options)%Z
    /\ (t = retry_steps n 0 (delay_of options) ++ [Fetched]
        \/ ((Z.of_nat n < maxRetries_of options)%Z
            /\ t = retry_steps n 0 (delay_of options)
                   ++ [Fetched; Logged (delay_at (delay_of options) n);
                       Notified (Z.of_nat n) (delay_at (delay_of options) n)])).
Proof.
  intros HN Hrun. unfold fetchWithBackoff in Hrun.
  destruct (loop_structure _ _ _ _ _ _ _ _ _ HN Hrun) as (n & Hn & Hshape).
  exists n. split; [lia|].
  destruct Hshape as [-> | (Hlt & -> & _)]; [now left|right].
  split; [lia|reflexivity].
Qed.

Lemma negative_limit (fetch : Fetch) (options : BackoffOptions) :
  (maxRetries_of options < 0)%Z ->
  fetchWithBackoff (Some fetch) options
  = Some (Thrown (Error (units "Max retries reached.")), []).
Proof.
  intros HN. unfold fetchWithBackoff. cbn [loop].
  now replace (0 <=? maxRetries_of options)%Z with false
    by (symmetry; apply Z.leb_gt; lia).
Qed.



End RunEndings.

(* ================================================================== *)
(** * The event framer: texts and buffers *)

Module TextFacts.

Import Streams Framer FramerFacts FramerRuns.

Local Open Scope nat_scope.

Lemma startsWith_app (p s : jsstring) : startsWith p (p ++ s) = true.
Proof.
  induction p as [|x p IH]; [reflexivity|]. cbn. now rewrite N.eqb_refl, IH.
Qed.

Lemma startsWith_split (p : jsstring) :
  forall s, startsWith p s = true -> exists r, s = p ++ r.
Proof.
  induction p as [|x p IH]; intros s; [now exists s|].
  destruct s as [|y s]; cbn; [discriminate|]. intros H.
  apply andb_true_iff in H as [Hx Hs]. apply N.eqb_eq in Hx as ->.
  destruct (IH s Hs) as (r & ->). now exists r.
Qed.

(** A prefix as long as the pattern decides. *)
Lemma startsWith_app_long (p : jsstring) :
  forall b c, length p <= length b -> startsWith p (b ++ c) = startsWith p b.
Proof.
  induction p as [|x p IH]; intros b c Hlen; [reflexivity|].
  destruct b as [|y b]; cbn in *; [lia|]. rewrite IH by lia. reflexivity.
Qed.

Lemma indexOf_occurs (p : jsstring) :
  forall x y, indexOf p (x ++ p ++ y) <> None.
Proof.
  induction x as [|u x IH]; intros y.
  - cbn [app]. destruct (p ++ y) eqn:E; cbn [indexOf]; rewrite <- E, startsWith_app;
      discriminate.
  - cbn [app indexOf]. destruct (startsWith p (u :: x ++ p ++ y)); [discriminate|].
    specialize (IH y). destruct (indexOf p (x ++ p ++ y)); [discriminate|now elim IH].
Qed.

Lemma indexOf_app_Some (p : jsstring) :
  forall b c k, indexOf p b = Some k -> indexOf p (b ++ c) = Some k.
Proof.
  induction b as [|y b IH]; intros c k Hk.
  - cbn [indexOf] in Hk. destruct (startsWith p []) eqn:Hp; [|discriminate].
    injection Hk as <-. destruct p; [|discriminate].
    cbn [app]. destruct c; reflexivity.
  - pose proof (indexOf_bound p _ _ Hk) as Hlen.
    cbn [indexOf app] in *.
    change (y :: b ++ c) with ((y :: b) ++ c).
    rewrite startsWith_app_long by lia.
    destruct (startsWith p (y :: b)); [exact Hk|].
    destruct (indexOf p b) as [k'|]; [|discriminate].
    now rewrite (IH c k' eq_refl).
Qed.

(** The first blank line after a text without line feeds. *)
Lemma indexOf_blank_line (pre : jsstring) :
  forall rest,
    Forall (fun u => u <> 10%N) pre ->
    indexOf LFLF (pre ++ 10%N :: 10%N :: rest) = Some (length pre).
Proof.
  induction pre as [|u pre IH]; intros rest Hpre.
  - reflexivity.
  - inversion Hpre as [|? ? Hu Hpre']; subst.
    cbn [app indexOf]. unfold LFLF at 1. cbn [startsWith].
    replace (10 =? u)%N with false by (symmetry; apply N.eqb_neq; congruence).
    cbn [andb]. now rewrite IH.
Qed.

Lemma startsWith_before_line_feed (q : jsstring) :
  forall p r,
    Forall (fun u => u <> 10%N) q ->
    startsWith q p = false ->
    startsWith q (p ++ 10%N :: r) = false.
Proof.
  induction q as [|x q IH]; intros p r Hq Hp; [discriminate|].
  inversion Hq as [|? ? Hx Hq']; subst.
  destruct p as [|y p]; cbn [app startsWith] in *.
  - replace (x =? 10)%N with false by (symmetry; apply N.eqb_neq; congruence).
    reflexivity.
  - destruct (x =? y)%N; [|reflexivity]. cbn [andb] in *. now apply IH.
Qed.

Lemma trim_after_space (p : jsstring) : trim (32%N :: p) = trim p.
Proof. reflexivity. Qed.

(** What the loop cuts out of a buffer that begins with a line. *)
Lemma line_extraction (p rest : jsstring) :
  one_line p ->
  indexOf LFLF (line p ++ rest) = Some (6 + length p)
  /\ trim (slice 5 (6 + length p) (line p ++ rest)) = trim p
  /\ sliceFrom (6 + length p + 2) (line p ++ rest) = rest.
Proof.
  intros Hp. unfold line. split; [|split].
  - rewrite <- !app_assoc.
    replace (units "data: " ++ p ++ LFLF ++ rest)
      with ((units "data: " ++ p) ++ LFLF ++ rest) by now rewrite <- app_assoc.
    change (LFLF ++ rest) with (10%N :: 10%N :: rest).
    rewrite indexOf_blank_line.
    + now rewrite length_app.
    + apply Forall_app. split; [|exact Hp].
      repeat constructor; discriminate.
  - unfold slice. change (units "data: ") with (units "data:" ++ [32%N]).
    rewrite <- !app_assoc. cbn [units list_ascii_of_string map app skipn].
    replace (6 + length p - 5) with (S (length p)) by lia.
    cbn [firstn]. rewrite firstn_app, firstn_all, Nat.sub_diag. cbn [firstn].
    rewrite app_nil_r. apply trim_after_space.
  - unfold sliceFrom. rewrite <- !app_assoc.
    cbn [units list_ascii_of_string map app]. cbn [Nat.add skipn].
    rewrite skipn_app, (skipn_all2 p) by lia.
    replace (length p + 2 - length p) with 2 by lia. reflexivity.
Qed.

Lemma DONE_EVENT_DONE : DONE_EVENT = units "data: " ++ DONE.
Proof. reflexivity. Qed.

(** A text that nowhere holds [[DONE]] is quiet. *)
Lemma quiet_without_sentinel (text : jsstring) :
  indexOf DONE text = None -> quiet text.
Proof.
  intros Hnone before part after ->.
  destruct (bufferIsDone part) eqn:Hdone; [exfalso|reflexivity].
  unfold bufferIsDone in Hdone. apply orb_true_iff in Hdone as [H|H].
  - apply startsWith_split in H as (r & ->). rewrite DONE_EVENT_DONE in Hnone.
    rewrite <- !app_assoc in Hnone.
    replace (before ++ units "data: " ++ DONE ++ r ++ after)
      with ((before ++ units "data: ") ++ DONE ++ r ++ after) in Hnone
      by now rewrite <- app_assoc.
    now apply indexOf_occurs in Hnone.
  - apply BackoffFacts.eqb_eq in H as ->. now apply indexOf_occurs in Hnone.
Qed.

Lemma quiet_part (a b c : jsstring) : quiet (a ++ b ++ c) -> quiet b.
Proof.
  intros H before part after ->. apply (H (a ++ before) part (after ++ c)).
  now rewrite <- !app_assoc.
Qed.

Lemma quiet_self (b : jsstring) : quiet b -> bufferIsDone b = false.
Proof. intros H. apply (H [] b []). now rewrite app_nil_r. Qed.

Lemma close_and_return_stops_any (onDone_ : option DoneHook) (w w' : world) :
  close_and_return onDone_ w = (Normal, w') -> False.
Proof.
  unfold close_and_return, closeController.
  destruct (size_truthy _); [destruct (close (ctrl w)) as [e0|c0]|];
    destruct onDone_ as [[e|]|]; discriminate.
Qed.

End TextFacts.

(* ================================================================== *)
(** * The event framer: the pending buffer and the chunking *)

Module ChunkFacts.

Import Streams Framer FramerFacts FramerRuns TextFacts.

Local Open Scope nat_scope.

Section Chunks.

Variable JSON_parse : jsstring -> option json.
Variable mode_ : StreamMode.
Variable onDone_ : option DoneHook.

#[local] Abbreviation while_true := (while_true JSON_parse mode_ onDone_).
#[local] Abbreviation on_chunk := (on_chunk JSON_parse mode_ onDone_).
#[local] Abbreviation feed := (feed JSON_parse mode_ onDone_).
#[local] Abbreviation start := (start JSON_parse mode_ onDone_).

(** One turn of the loop. *)
Lemma while_true_S (fuel : nat) (buffer : jsstring) (w : world) :
  while_true (S fuel) buffer w
  = match indexOf LFLF buffer with
    | None =>
      if bufferIsDone buffer then Some (close_and_return onDone_ w, buffer)
      else Some (Normal, w, buffer)
    | Some boundary =>
      if bufferIsDone (sliceFrom (boundary + 2) buffer)
      then Some (close_and_return onDone_ w, sliceFrom (boundary + 2) buffer)
      else
        match (if typeof_object
                    match JSON_parse (trim (slice 5 boundary buffer)) with
                    | Some v => v
                    | None => JNull
                    end
               then on_object mode_ onDone_ (trim (slice 5 boundary buffer))
                      match JSON_parse (trim (slice 5 boundary buffer)) with
                      | Some v => v
                      | None => JNull
                      end w
               else (Normal, w)) with
        | (Normal, w') => while_true fuel (sliceFrom (boundary + 2) buffer) w'
        | (stop, w') => Some (stop, w', sliceFrom (boundary + 2) buffer)
        end
    end.
Proof. reflexivity. Qed.

(** Fuel beyond the length of the buffer changes nothing. *)
Lemma while_true_fuel :
  forall f1 f2 buffer w,
    length buffer < f1 -> length buffer < f2 ->
    while_true f1 buffer w = while_true f2 buffer w.
Proof.
  induction f1 as [|f1 IH]; intros f2 buffer w H1 H2; [lia|].
  destruct f2 as [|f2]; [lia|]. cbn [Framer.while_true].
  destruct (indexOf LFLF buffer) as [boundary|] eqn:Hb; [|reflexivity].
  destruct (bufferIsDone _); [reflexivity|].
  destruct (if typeof_object _ then _ else _) as [[| |e] w']; try reflexivity.
  apply indexOf_bound in Hb. cbn in Hb.
  apply IH; unfold sliceFrom; rewrite length_skipn; lia.
Qed.

(** What the loop leaves in the buffer is the end of what it was given;
    when it waits for the next chunk, that end holds no boundary and is
    not taken for the sentinel. *)
Lemma while_true_leaves :
  forall fuel buffer w k w' buffer',
    while_true fuel buffer w = Some (k, w', buffer') ->
    (exists used, buffer = used ++ buffer')
    /\ (k = Normal ->
        indexOf LFLF buffer' = None /\ bufferIsDone buffer' = false).
Proof.
  induction fuel as [|fuel IH]; intros buffer w k w' buffer'; [discriminate|].
  cbn [Framer.while_true].
  assert (forall n, exists used, buffer = used ++ sliceFrom n buffer) as Hcut.
  { intros n. exists (firstn n buffer). unfold sliceFrom.
    now rewrite firstn_skipn. }
  destruct (indexOf LFLF buffer) as [boundary|] eqn:Hb.
  - destruct (bufferIsDone _) eqn:Hdone.
    + intros [= H <-]. split; [apply Hcut|]. intros ->.
      now apply close_and_return_stops_any in H.
    + destruct (if typeof_object _ then _ else _) as [[| |e] w1].
      * intros H. apply IH in H as [(used & Hused) Hk].
        split; [|exact Hk]. destruct (Hcut (boundary + 2)) as (used0 & Hcut0).
        exists (used0 ++ used). rewrite <- app_assoc, <- Hused. exact Hcut0.
      * intros [= <- <- <-]. split; [apply Hcut|discriminate].
      * intros [= <- <- <-]. split; [apply Hcut|discriminate].
  - destruct (bufferIsDone buffer) eqn:Hdone.
    + intros [= H <-]. split; [now exists []|]. intros ->.
      now apply close_and_return_stops_any in H.
    + intros [= <- <- <-]. split; [now exists []|]. auto.
Qed.

Lemma start_feed (source : list item) :
  forall buffer w, start source buffer w = finished (feed source buffer w).
Proof.
  induction source as [|[decoded|] source IH]; intros buffer w;
    cbn [Framer.start FramerRuns.feed].
  - reflexivity.
  - destruct (on_chunk buffer decoded w) as [[[[| |e] w'] b']|]; auto.
  - apply IH.
Qed.

Lemma feed_app (source more : list item) :
  forall buffer w w' buffer',
    feed source buffer w = Some (Normal, w', buffer') ->
    feed (source ++ more) buffer w = feed more buffer' w'.
Proof.
  induction source as [|[decoded|] source IH]; intros buffer w w' buffer';
    cbn [FramerRuns.feed app].
  - now intros [= <- <-].
  - destruct (on_chunk buffer decoded w) as [[[[| |e] w1] b1]|];
      try discriminate.
    apply IH.
  - apply IH.
Qed.

Lemma left_Normal (r : option (completion * world * jsstring))
  (w : world) (b : jsstring) :
  left r = Some (Normal, w, b) -> r = Some (Normal, w, b).
Proof.
  destruct r as [[[[| |e] w'] b']|]; cbn; congruence.
Qed.

Lemma finished_left (r : option (completion * world * jsstring)) :
  finished (left r) = finished r.
Proof. destruct r as [[[[| |e] w'] b']|]; reflexivity. Qed.

(** The loop over a buffer and a text that follows is the loop over the
    buffer, then the loop over what it left and the text. *)
Lemma while_true_app :
  forall fuel b c w,
    length (b ++ c) < fuel ->
    quiet (b ++ c) ->
    left (while_true fuel (b ++ c) w)
    = left (match while_true fuel b w with
            | Some (Normal, w', b') => while_true fuel (b' ++ c) w'
            | r => r
            end).
Proof.
  induction fuel as [|fuel IH]; intros b c w Hlen Hquiet; [lia|].
  assert (bufferIsDone b = false) as Hb_quiet.
  { apply (Hquiet [] b c). reflexivity. }
  rewrite (while_true_S fuel b w), (while_true_S fuel (b ++ c) w).
  destruct (indexOf LFLF b) as [boundary|] eqn:Hb.
  - pose proof (indexOf_bound _ _ _ Hb) as Hbound. cbn in Hbound.
    rewrite (indexOf_app_Some _ _ c _ Hb).
    assert (slice 5 boundary (b ++ c) = slice 5 boundary b) as ->.
    { unfold slice. destruct (Nat.le_gt_cases boundary 5) as [Hle|Hgt].
      - replace (boundary - 5) with 0 by lia. reflexivity.
      - rewrite skipn_app, firstn_app, length_skipn.
        replace (boundary - 5 - (length b - 5)) with 0 by lia.
        rewrite firstn_O. apply app_nil_r. }
    assert (sliceFrom (boundary + 2) (b ++ c) = sliceFrom (boundary + 2) b ++ c) as ->.
    { unfold sliceFrom. rewrite skipn_app.
      replace (boundary + 2 - length b) with 0 by lia. reflexivity. }
    assert (exists used, b = used ++ sliceFrom (boundary + 2) b) as (used & Hused).
    { exists (firstn (boundary + 2) b). unfold sliceFrom. now rewrite firstn_skipn. }
    assert (quiet (sliceFrom (boundary + 2) b ++ c)) as Hrest.
    { apply (quiet_part used _ []). rewrite app_nil_r, app_assoc, <- Hused.
      exact Hquiet. }
    rewrite (Hrest [] (sliceFrom (boundary + 2) b ++ c) [])
      by now rewrite app_nil_r.
    rewrite (Hrest [] (sliceFrom (boundary + 2) b) c) by reflexivity.
    assert (length (sliceFrom (boundary + 2) b ++ c) < fuel) as Hfuel.
    { rewrite length_app in *. unfold sliceFrom. rewrite length_skipn. lia. }
    destruct (if typeof_object _ then _ else _) as [[| |e] w1]; try reflexivity.
    rewrite (IH _ c w1 Hfuel Hrest).
    destruct (Framer.while_true JSON_parse mode_ onDone_ fuel
                (sliceFrom (boundary + 2) b) w1)
      as [[[[| |e] w2] b2]|] eqn:Hrec; try reflexivity.
    apply while_true_leaves in Hrec as [(used2 & Hused2) _].
    assert (length (b2 ++ c) < fuel) as Hfuel2.
    { rewrite Hused2, !length_app in Hfuel. rewrite length_app. lia. }
    f_equal. apply while_true_fuel; lia.
  - rewrite Hb_quiet. reflexivity.
Qed.

(** Fed chunk by chunk or in one piece, a quiet text leaves the loop in
    the same way. *)
Lemma feed_one_piece (chunks : list jsstring) :
  forall b w fuel,
    indexOf LFLF b = None ->
    quiet (b ++ concat chunks) ->
    length (b ++ concat chunks) < fuel ->
    left (feed (map Chunk chunks) b w)
    = left (while_true fuel (b ++ concat chunks) w).
Proof.
  induction chunks as [|c chunks IH]; intros b w fuel Hb Hquiet Hfuel;
    cbn [map concat FramerRuns.feed] in *.
  - rewrite app_nil_r in *. destruct fuel as [|fuel]; [lia|].
    cbn [Framer.while_true]. now rewrite Hb, (quiet_self b Hquiet).
  - rewrite app_assoc in Hquiet, Hfuel. rewrite app_assoc.
    rewrite (while_true_app fuel (b ++ c) (concat chunks) w Hfuel Hquiet).
    unfold Framer.on_chunk.
    rewrite (Hquiet [] (b ++ c) (concat chunks)) by reflexivity.
    assert (length (b ++ c) < fuel) as Hfuel1.
    { rewrite length_app in Hfuel. lia. }
    rewrite (while_true_fuel (S (length (b ++ c))) fuel) by lia.
    destruct (Framer.while_true JSON_parse mode_ onDone_ fuel (b ++ c) w)
      as [[[[| |e] w1] b1]|] eqn:Hrec; try reflexivity.
    apply while_true_leaves in Hrec as [(used & Hused) Hnormal].
    destruct (Hnormal eq_refl) as [Hb1 _].
    apply IH; [exact Hb1| |].
    + apply (quiet_part used _ []). rewrite app_nil_r, app_assoc, <- Hused.
      exact Hquiet.
    + rewrite Hused, !length_app in Hfuel. rewrite length_app. lia.
Qed.

End Chunks.

End ChunkFacts.

(* ================================================================== *)
(** * The event framer: what every run keeps *)

Section RunInvariants.

Import Streams Framer FramerFacts LogFacts FramerRuns TextFacts ChunkFacts
  Samples StreamSamples.

Local Open Scope nat_scope.

(** X7. Whenever the framer has taken a chunk and waits for the next one,
    the pending buffer is the end of the text received so far, holds no
    blank-line boundary and is not taken for the sentinel. *)
Theorem pending_buffer_holds_no_boundary
  (JSON_parse : jsstring -> option json) (m : StreamMode)
  (onDone_ : option DoneHook) (buffer decoded : jsstring) (w w' : world)
  (buffer' : jsstring) :
  on_chunk JSON_parse m onDone_ buffer decoded w = Some (Normal, w', buffer') ->
  indexOf LFLF buffer' = None
  /\ bufferIsDone buffer' = false
  /\ exists used, buffer ++ decoded = used ++ buffer'.
Proof.
  unfold on_chunk. destruct (bufferIsDone (buffer ++ decoded)).
  - intros [= H _]. now apply close_and_return_stops_any in H.
  - intros H. apply while_true_leaves in H as [Hused Hnormal].
    destruct (Hnormal eq_refl) as [Hb Hdone]. auto.
Qed.

Lemma pending_buffer_holds_no_boundary_witness :
  indexOf LFLF (wire "data: {'b'") = None
  /\ bufferIsDone (wire "data: {'b'") = false
  /\ exists used, wire "data: {'a'" ++ wire ":1}$$data: {'b'"
                  = used ++ wire "data: {'b'".
Proof.
  apply (pending_buffer_holds_no_boundary Reference.JSON_parse tokens None
           (wire "data: {'a'") (wire ":1}$$data: {'b'") world0
           {| ctrl := {| state := Readable; queue := [wire "{'a':1}"];
                         closeRequested := false; readRequests := 0 |};
              log := [AEnqueue (wire "{'a':1}")] |}).
  vm_compute. reflexivity.
Defined.

Lemma closeController_frames (onDone_ : option DoneHook) (w : world) :
  frames (log (snd (closeController onDone_ w))) = frames (log w).
Proof.
  unfold closeController, record.
  destruct (size_truthy _); [destruct (close (ctrl w)) as [e0|c0]|];
    destruct onDone_ as [[e|]|]; cbn [snd log];
    rewrite ?frames_app; cbn [frames flat_map app]; now rewrite ?app_nil_r.
Qed.

Lemma close_and_return_frames (onDone_ : option DoneHook) (w : world) :
  frames (log (snd (close_and_return onDone_ w))) = frames (log w).
Proof.
  unfold close_and_return. rewrite <- (closeController_frames onDone_ w).
  destruct (closeController onDone_ w) as [[| |e] w']; reflexivity.
Qed.

Section Frames.

Variable JSON_parse : jsstring -> option json.
Variable mode_ : StreamMode.
Variable onDone_ : option DoneHook.

Lemma for_choices_frames (choices : list json) (w : world) :
  frames (log (snd (for_choices mode_ onDone_ choices w))) = frames (log w).
Proof.
  induction choices as [|choice rest IH]; cbn [for_choices]; [reflexivity|].
  destruct (is_string _ (units "stop")); [apply close_and_return_frames|].
  destruct (_ && _); [reflexivity|exact IH].
Qed.

Lemma check_choices_frames (parsed : json) (w : world) :
  frames (log (snd (check_choices mode_ onDone_ parsed w))) = frames (log w).
Proof.
  unfold check_choices. destruct (truthy _); [|reflexivity].
  destruct (prop parsed (units "choices")) as [[]|]; try reflexivity.
  apply for_choices_frames.
Qed.

Lemma check_error_frames (parsed : json) (w : world) :
  frames (log (snd (check_error parsed w))) = frames (log w)
  /\ (fst (check_error parsed w) = Normal -> parsed <> JNull).
Proof.
  unfold check_error. destruct parsed; cbn [hasOwnProperty];
    try (split; [reflexivity|discriminate]).
  destruct (assoc (units "hasOwnProperty") members);
    [split; [reflexivity|discriminate]|].
  destruct (assoc (units "error") members) as [e|] eqn:He;
    [|split; [reflexivity|discriminate]].
  unfold prop. rewrite He.
  destruct e; cbn [snd fst log record]; rewrite ?frames_app;
    cbn [frames flat_map app]; rewrite ?app_nil_r;
    (split; [reflexivity|discriminate]).
Qed.

(** The block on a parsed value adds at most one frame, the candidate, and
    only for a value that is not [null]. *)
Lemma on_object_frames (jsonString : jsstring) (parsed : json) (w : world) :
  frames (log (snd (on_object mode_ onDone_ jsonString parsed w))) = frames (log w)
  \/ (frames (log (snd (on_object mode_ onDone_ jsonString parsed w)))
      = frames (log w) ++ [jsonString]
      /\ parsed <> JNull).
Proof.
  unfold on_object.
  pose proof (check_choices_frames parsed w) as H1.
  destruct (check_choices mode_ onDone_ parsed w) as [[| |e1] w1];
    cbn [snd] in *; [|now left..].
  destruct (check_error_frames parsed w1) as [H2 Hnull].
  destruct (check_error parsed w1) as [[| |e2] w2]; cbn [snd fst] in *;
    [|left; congruence..].
  unfold send. destruct (enqueue jsonString (ctrl w2)); cbn [snd log record];
    [left; congruence|].
  right. split; [|now apply Hnull].
  rewrite frames_app. cbn. congruence.
Qed.

#[local] Abbreviation whole_objects := (whole_objects JSON_parse).

Lemma while_true_whole_objects :
  forall fuel buffer w k w' buffer',
    while_true JSON_parse mode_ onDone_ fuel buffer w = Some (k, w', buffer') ->
    whole_objects (frames (log w)) -> whole_objects (frames (log w')).
Proof.
  induction fuel as [|fuel IH]; intros buffer w k w' buffer'; [discriminate|].
  cbn [while_true].
  assert (forall k w', close_and_return onDone_ w = (k, w') ->
            whole_objects (frames (log w)) -> whole_objects (frames (log w')))
    as Hclose.
  { intros k0 w0 H. rewrite <- (close_and_return_frames onDone_ w), H. auto. }
  destruct (indexOf LFLF buffer) as [boundary|].
  - destruct (bufferIsDone _); [intros [= H _]; eauto|].
    set (jsonString := trim (slice 5 boundary buffer)).
    destruct (JSON_parse jsonString) as [v|] eqn:Hparse.
    + destruct (typeof_object v) eqn:Hobj.
      * pose proof (on_object_frames jsonString v w) as Hframes.
        destruct (on_object mode_ onDone_ jsonString v w) as [k1 w1].
        cbn [snd] in Hframes.
        assert (whole_objects (frames (log w)) -> whole_objects (frames (log w1)))
          as Hstep.
        { intros Hw. destruct Hframes as [-> | [-> Hnull]]; [exact Hw|].
          apply Forall_app. split; [exact Hw|]. repeat constructor. eauto. }
        destruct k1; [intros H Hw; eapply IH; eauto|intros [= <- <- <-]; auto..].
      * apply IH.
    + cbn [typeof_object].
      pose proof (on_object_frames jsonString JNull w) as Hframes.
      destruct (on_object mode_ onDone_ jsonString JNull w) as [k1 w1].
      cbn [snd] in Hframes.
      assert (frames (log w1) = frames (log w)) as Heq.
      { destruct Hframes as [-> | [_ Hnull]]; [reflexivity|now elim Hnull]. }
      destruct k1; [intros H Hw; eapply IH; eauto; now rewrite Heq
                   |intros [= <- <- <-]; now rewrite Heq..].
  - destruct (bufferIsDone buffer); [intros [= H _]; eauto|].
    now intros [= <- <- <-].
Qed.

Lemma start_whole_objects (source : list item) :
  forall buffer w st w',
    start JSON_parse mode_ onDone_ source buffer w = Some (st, w') ->
    whole_objects (frames (log w)) -> whole_objects (frames (log w')).
Proof.
  induction source as [|[decoded|] source IH]; intros buffer w st w'; cbn [start].
  - now intros [= <- <-].
  - unfold on_chunk. destruct (bufferIsDone _).
    + pose proof (close_and_return_frames onDone_ w) as Hf.
      destruct (close_and_return onDone_ w) as [[| |e] w1]; cbn [snd] in Hf.
      * intros H Hw. eapply IH; eauto. now rewrite Hf.
      * intros [= <- <-]. now rewrite Hf.
      * intros [= <- <-]. cbn [log]. now rewrite Hf.
    + destruct (while_true _ _ _ _ _ _) as [[[k w1] b1]|] eqn:Hloop; [|discriminate].
      pose proof (while_true_whole_objects _ _ _ _ _ _ Hloop) as Hw1.
      destruct k.
      * intros H Hw. eapply IH; eauto.
      * intros [= <- <-]. exact Hw1.
      * intros [= <- <-]. exact Hw1.
  - intros H Hw. exact (IH _ _ _ _ H Hw).
Qed.

End Frames.

(** X8. Only what parses is sent: every frame of every run is a candidate
    that [JSON.parse] accepted and whose value is an object or an array,
    never [null]. *)
Theorem every_frame_is_a_parsed_object
  (JSON_parse : jsstring -> option json) (stream : list item)
  (options : OpenAIStreamOptions) :
  exists st w,
    EventStream JSON_parse stream options = Some (st, w)
    /\ Forall (fun f => exists v, JSON_parse f = Some v
                                  /\ typeof_object v = true /\ v <> JNull)
              (frames (log w)).
Proof.
  destruct (EventStream_shape JSON_parse stream options) as (st & w & Hrun & _).
  exists st, w. split; [exact Hrun|].
  unfold EventStream in Hrun.
  apply (start_whole_objects _ _ _ _ _ _ _ _ Hrun). constructor.
Qed.

(** X9. How the text is cut into chunks does not matter as long as it
    nowhere holds [[DONE]]: delivered in any chunks or in one piece, it
    gives the same run, from an empty buffer and any state of the output. *)
Theorem chunking_does_not_matter_without_sentinel
  (JSON_parse : jsstring -> option json) (m : StreamMode)
  (onDone_ : option DoneHook) (chunks : list jsstring) (w : world)
  (options : OpenAIStreamOptions) :
  indexOf DONE (concat chunks) = None ->
  start JSON_parse m onDone_ (map Chunk chunks) [] w
  = start JSON_parse m onDone_ [Chunk (concat chunks)] [] w
  /\ EventStream JSON_parse (map Chunk chunks) options
     = EventStream JSON_parse [Chunk (concat chunks)] options.
Proof.
  intros Hnone. apply quiet_without_sentinel in Hnone.
  assert (forall m d w,
            start JSON_parse m d (map Chunk chunks) [] w
            = start JSON_parse m d [Chunk (concat chunks)] [] w) as H.
  { intros m0 d0 w0. rewrite !start_feed.
    rewrite <- finished_left.
    rewrite (feed_one_piece JSON_parse m0 d0 chunks [] w0
               (S (length (concat chunks))) eq_refl Hnone) by (cbn; lia).
    rewrite finished_left. cbn [feed app].
    unfold on_chunk. cbn [app]. rewrite (quiet_self _ Hnone).
    destruct (while_true _ _ _ _ _ _) as [[[[| |e] w1] b1]|]; reflexivity. }
  split; [apply H|]. unfold EventStream. apply H.
Qed.

Lemma chunking_does_not_matter_without_sentinel_witness :
  start Reference.JSON_parse tokens None (map Chunk three_events_chunks) [] world0
  = start Reference.JSON_parse tokens None
      [Chunk (concat three_events_chunks)] [] world0
  /\ EventStream Reference.JSON_parse (map Chunk three_events_chunks) no_options
     = EventStream Reference.JSON_parse [Chunk (concat three_events_chunks)]
         no_options.
Proof.
  apply (chunking_does_not_matter_without_sentinel Reference.JSON_parse tokens
           None three_events_chunks world0 no_options).
  vm_compute. reflexivity.
Defined.

End RunInvariants.

(* ================================================================== *)
(** * The event framer: streams of well-formed events *)

Section WellFormedStreams.

Import Streams Framer FramerFacts LogFacts FramerRuns TextFacts ChunkFacts
  Samples StreamSamples.

Local Open Scope nat_scope.

Lemma open_record (a : jsstring) (c : controller) (w : world) :
  state c = Readable -> closeRequested c = false ->
  open (record (AEnqueue a) c w).
Proof. intros Hs Hc. split; assumption. Qed.

(** On an open controller a value that passes is framed. *)
Lemma on_object_passes (m : StreamMode) (onDone_ : option DoneHook)
  (jsonString : jsstring) (v : json) (w : world) :
  passes m v -> typeof_object v = true ->
  on_object m onDone_ jsonString v w = send jsonString w.
Proof.
  intros Hpass Hobj. destruct v; try discriminate; [now elim Hpass|reflexivity|].
  destruct Hpass as (Hown & Herr & Hchoices).
  unfold on_object.
  assert (check_choices m onDone_ (JObj members) w = (Normal, w)) as ->.
  { unfold check_choices, prop.
    destruct Hchoices as [Hfalsy | [(s & ->) | (l & -> & Hl)]].
    - now rewrite Hfalsy.
    - destruct (truthy _); reflexivity.
    - cbn [truthy]. rewrite <- (app_nil_r l).
      now rewrite (for_choices_skip m onDone_ l [] w Hl). }
  unfold check_error, hasOwnProperty. now rewrite Hown, Herr.
Qed.

Lemma enqueue_all_ready (fs : list jsstring) :
  forall c,
    state c = Readable -> closeRequested c = false -> readRequests c = 0 ->
    enqueue_all fs c
    = {| state := Readable; queue := queue c ++ fs; closeRequested := false;
         readRequests := 0 |}.
Proof.
  induction fs as [|f fs IH]; intros c Hs Hc Hr; cbn [enqueue_all fold_left].
  - rewrite app_nil_r. destruct c; cbn in *; now subst.
  - unfold enqueue at 2, canCloseOrEnqueue, is_readable. rewrite Hs, Hc, Hr.
    cbn [negb andb]. fold (enqueue_all fs). rewrite IH by reflexivity.
    cbn [queue]. now rewrite <- app_assoc.
Qed.

Section Events.

Variable JSON_parse : jsstring -> option json.
Variable mode_ : StreamMode.
Variable onDone_ : option DoneHook.

(** The loop over the text of well-formed events frames, in order, the
    payloads whose value is an object or an array, and leaves nothing. *)
Lemma while_true_events (events : list (jsstring * json)) :
  forall fuel w,
    open w ->
    Forall (well_formed JSON_parse mode_) events ->
    quiet (text_of events) ->
    length (text_of events) < fuel ->
    while_true JSON_parse mode_ onDone_ fuel (text_of events) w
    = Some (Normal,
            {| ctrl := enqueue_all (frames_of events) (ctrl w);
               log := log w ++ map AEnqueue (frames_of events) |},
            []).
Proof.
  induction events as [|[p v] events IH]; intros fuel w Hopen Hwf Hquiet Hfuel;
    (destruct fuel as [|fuel]; [lia|]).
  - cbn. rewrite app_nil_r. destruct w; reflexivity.
  - inversion Hwf as [|? ? (Hline & Hparse & Hpass) Hwf']; subst.
    cbn [fst snd] in *.
    change (text_of ((p, v) :: events)) with (line p ++ text_of events) in *.
    destruct (line_extraction p (text_of events) Hline) as (Hb & Hjs & Hrest).
    rewrite while_true_S, Hb, Hrest, Hjs, Hparse.
    assert (quiet (text_of events)) as Hquiet'.
    { apply (quiet_part (line p) _ []). now rewrite app_nil_r. }
    rewrite (quiet_self _ Hquiet').
    assert (length (text_of events) < fuel) as Hfuel'.
    { rewrite length_app in Hfuel. unfold line in Hfuel.
      rewrite !length_app in Hfuel. cbn in Hfuel. lia. }
    unfold frames_of. cbn [filter snd].
    destruct (typeof_object v) eqn:Hobj.
    + rewrite (on_object_passes mode_ onDone_ _ v w Hpass Hobj).
      unfold send. pose proof (open_can w Hopen) as Hcan.
      destruct Hopen as [Hs Hc].
      destruct (enqueue (trim p) (ctrl w)) as [e|c] eqn:Henq.
      { unfold enqueue in Henq. rewrite Hcan in Henq. discriminate. }
      assert (state c = Readable /\ closeRequested c = false) as [Hs' Hc'].
      { unfold enqueue in Henq. rewrite Hcan in Henq. injection Henq as <-.
        destruct (readRequests (ctrl w)); cbn; auto. }
      rewrite (IH fuel _ (open_record _ _ _ Hs' Hc') Hwf' Hquiet' Hfuel').
      cbn [map fst enqueue_all fold_left record ctrl log]. rewrite Henq.
      now rewrite <- app_assoc.
    + now rewrite (IH fuel w Hopen Hwf' Hquiet' Hfuel').
Qed.

(** Fed in any chunks, the text of well-formed events is framed alike and
    the pending buffer is empty. *)
Lemma feed_events (events : list (jsstring * json)) (chunks : list jsstring)
  (w : world) :
  open w ->
  Forall (well_formed JSON_parse mode_) events ->
  indexOf DONE (text_of events) = None ->
  concat chunks = text_of events ->
  feed JSON_parse mode_ onDone_ (map Chunk chunks) [] w
  = Some (Normal,
          {| ctrl := enqueue_all (frames_of events) (ctrl w);
             log := log w ++ map AEnqueue (frames_of events) |},
          []).
Proof.
  intros Hopen Hwf Hnone Htext. apply quiet_without_sentinel in Hnone.
  apply left_Normal.
  rewrite (feed_one_piece JSON_parse mode_ onDone_ chunks [] w
             (S (length (text_of events))) eq_refl);
    cbn [app]; rewrite Htext; [|exact Hnone|lia].
  now rewrite (while_true_events events _ w Hopen Hwf Hnone) by lia.
Qed.

End Events.

(** X10. A stream of well-formed one-line events whose text nowhere holds
    [[DONE]], delivered in any chunks: the frames are, in the order of the
    events, the trimmed payloads of the events whose value is an object or
    an array (numbers, strings and booleans are passed over in silence);
    the source ends, so the hook is not run and the output stays open with
    the frames queued. *)
Theorem well_formed_events_are_framed_in_order
  (JSON_parse : jsstring -> option json) (options : OpenAIStreamOptions)
  (events : list (jsstring * json)) (chunks : list jsstring) :
  Forall (well_formed JSON_parse (mode_of options)) events ->
  indexOf DONE (text_of events) = None ->
  concat chunks = text_of events ->
  EventStream JSON_parse (map Chunk chunks) options
  = Some (Exhausted,
          {| ctrl := {| state := Readable; queue := frames_of events;
                        closeRequested := false; readRequests := 0 |};
             log := map AEnqueue (frames_of events) |}).
Proof.
  intros Hwf Hnone Htext. unfold EventStream. rewrite start_feed.
  fold (mode_of options).
  rewrite (feed_events JSON_parse (mode_of options) (onDone options) events chunks
             _ fresh_open Hwf Hnone Htext).
  cbn [finished finish ctrl log app].
  now rewrite enqueue_all_ready.
Qed.

Lemma one_line_check (p : jsstring) :
  forallb (fun u => negb (u =? 10)%N) p = true -> one_line p.
Proof.
  intros H. apply Forall_forall. intros u Hu.
  rewrite forallb_forall in H. specialize (H u Hu).
  apply negb_true_iff, N.eqb_neq in H. exact H.
Qed.

Lemma three_events_well_formed :
  Forall (well_formed Reference.JSON_parse tokens) three_events.
Proof.
  unfold three_events.
  constructor; [|constructor; [|constructor; [|constructor]]];
    (split; [apply one_line_check; vm_compute; reflexivity|]);
    (split; [vm_compute; reflexivity|]); cbn [snd passes]; auto.
  split; [reflexivity|]. split; [reflexivity|]. right. right.
  eexists. split; [reflexivity|].
  constructor; [|constructor]. split; [reflexivity|intros _; reflexivity].
Qed.

Lemma well_formed_events_are_framed_in_order_witness :
  EventStream Reference.JSON_parse (map Chunk three_events_chunks) no_options
  = Some (Exhausted,
          {| ctrl := {| state := Readable; queue := frames_of three_events;
                        closeRequested := false; readRequests := 0 |};
             log := map AEnqueue (frames_of three_events) |}).
Proof.
  apply (well_formed_events_are_framed_in_order Reference.JSON_parse no_options
           three_events three_events_chunks).
  - exact three_events_well_formed.
  - vm_compute. reflexivity.
  - vm_compute. reflexivity.
Defined.

(** X11. Well-formed events in any chunks, then a chunk that begins with
    [data: [DONE]]: the run completes with the frames of the events, then
    the close, then the hook once, when there is a hook (one that
    returns). With no read of the consumer in between, the close is left
    out exactly when one frame is queued, the desired size then being zero;
    the output is closed at once when no frame is queued and stays readable
    until the queue is read otherwise. *)
Theorem sentinel_chunk_completes_the_stream
  (JSON_parse : jsstring -> option json) (options : OpenAIStreamOptions)
  (events : list (jsstring * json)) (chunks : list jsstring)
  (decoded : jsstring) (more : list item) :
  Forall (well_formed JSON_parse (mode_of options)) events ->
  indexOf DONE (text_of events) = None ->
  concat chunks = text_of events ->
  startsWith DONE_EVENT decoded = true ->
  (forall e, onDone options <> Some (Some e)) ->
  exists w,
    EventStream JSON_parse (map Chunk chunks ++ Chunk decoded :: more) options
    = Some (Completed, w)
    /\ log w = map AEnqueue (frames_of events)
               ++ (if length (frames_of events) =? 1 then [] else [AClose])
               ++ done_part (onDone options)
    /\ queue (ctrl w) = frames_of events
    /\ state (ctrl w)
       = (if length (frames_of events) =? 0 then Closed else Readable)
    /\ closeRequested (ctrl w) = negb (length (frames_of events) =? 1).
Proof.
  intros Hwf Hnone Htext Hdone Hhook. unfold EventStream. rewrite start_feed.
  fold (mode_of options).
  rewrite (feed_app _ _ _ _ _ _ _ _ _
             (feed_events JSON_parse (mode_of options) (onDone options) events
                chunks _ fresh_open Hwf Hnone Htext)).
  cbn [feed ctrl log app]. rewrite enqueue_all_ready by reflexivity.
  unfold on_chunk. cbn [app queue fresh].
  assert (bufferIsDone decoded = true) as -> by (unfold bufferIsDone; now rewrite Hdone).
  set (w1 := {| ctrl := {| state := Readable; queue := frames_of events;
                         closeRequested := false; readRequests := 0 |};
                log := map AEnqueue (frames_of events) |}).
  assert (open w1) as Hopen by (split; reflexivity).
  destruct (close_and_return_open (onDone options) w1 Hopen) as (c & Hclose & Hc).
  rewrite Hclose.
  assert (match onDone options with Some (Some e) => Throw e | _ => Return end
          = Return) as ->.
  { destruct (onDone options) as [[e|]|]; [now elim (Hhook e)|reflexivity..]. }
  cbn [finished finish]. eexists. split; [reflexivity|].
  unfold close_part in *. cbn [ctrl log w1 desiredSize state queue size_truthy] in *.
  unfold highWaterMark in *.
  destruct (frames_of events) as [|f [|f' fs]] eqn:Hfs.
  - cbn in Hc |- *. injection Hc as <-. auto.
  - cbn in Hc |- *. subst c. auto.
  - replace (negb (1 - Z.of_nat (length (f :: f' :: fs)) =? 0)%Z) with true in *
      by (symmetry; apply negb_true_iff, Z.eqb_neq; cbn [length]; lia).
    cbn in Hc |- *. injection Hc as <-. auto.
Qed.

Lemma sentinel_chunk_completes_the_stream_witness :
  exists w,
    EventStream Reference.JSON_parse
      (map Chunk three_events_chunks ++ Chunk (wire "data: [DONE]$$") :: [])
      hook_only
    = Some (Completed, w)
    /\ log w = map AEnqueue (frames_of three_events)
               ++ (if length (frames_of three_events) =? 1 then [] else [AClose])
               ++ done_part (onDone hook_only)
    /\ queue (ctrl w) = frames_of three_events
    /\ state (ctrl w)
       = (if length (frames_of three_events) =? 0 then Closed else Readable)
    /\ closeRequested (ctrl w) = negb (length (frames_of three_events) =? 1).
Proof.
  apply (sentinel_chunk_completes_the_stream Reference.JSON_parse hook_only
           three_events three_events_chunks (wire "data: [DONE]$$") []).
  - exact three_events_well_formed.
  - vm_compute. reflexivity.
  - vm_compute. reflexivity.
  - vm_compute. reflexivity.
  - intros e H. discriminate H.
Defined.

Lemma startsWith_common (a : jsstring) :
  forall q s, startsWith (a ++ q) (a ++ s) = startsWith q s.
Proof.
  induction a as [|x a IH]; intros q s; [reflexivity|].
  cbn. now rewrite N.eqb_refl, IH.
Qed.

(** A buffer that begins with a line whose payload does not begin with
    [[DONE]] is not taken for the sentinel. *)
Lemma line_is_not_done (p rest : jsstring) :
  one_line p -> startsWith DONE p = false ->
  bufferIsDone (line p ++ rest) = false.
Proof.
  intros Hline Hp. unfold bufferIsDone, line.
  rewrite DONE_EVENT_DONE, <- !app_assoc, startsWith_common.
  change (LFLF ++ rest) with (10%N :: 10%N :: rest).
  rewrite startsWith_before_line_feed;
    [reflexivity|repeat constructor; discriminate|exact Hp].
Qed.

(** X12. The same bytes, another cut: an event and the sentinel event in
    one chunk end the run without the frame of the event, which is taken
    out of the buffer and never parsed; the event in a chunk of its own,
    followed by the sentinel chunk, is framed. *)
Theorem event_before_sentinel_in_one_chunk_is_dropped
  (JSON_parse : jsstring -> option json) (options : OpenAIStreamOptions)
  (p : jsstring) (v : json) (decoded : jsstring) (more : list item) :
  one_line p ->
  startsWith DONE p = false ->
  startsWith DONE_EVENT decoded = true ->
  JSON_parse (trim p) = Some v ->
  typeof_object v = true ->
  passes (mode_of options) v ->
  (exists st w,
     EventStream JSON_parse (Chunk (line p ++ decoded) :: more) options
     = Some (st, w)
     /\ st <> Exhausted /\ frames (log w) = [])
  /\ (exists st w,
        EventStream JSON_parse (Chunk (line p) :: Chunk decoded :: more) options
        = Some (st, w)
        /\ st <> Exhausted /\ frames (log w) = [trim p]).
Proof.
  intros Hline Hp Hdone Hparse Hobj Hpass.
  assert (bufferIsDone decoded = true) as Hdone'
    by (unfold bufferIsDone; now rewrite Hdone).
  assert (forall w, exists st w',
            finish (fst (close_and_return (onDone options) w))
                   (snd (close_and_return (onDone options) w)) = (st, w')
            /\ st <> Exhausted /\ frames (log w') = frames (log w)) as Hclose.
  { intros w. pose proof (close_and_return_frames (onDone options) w) as Hf.
    pose proof (close_and_return_stops (onDone options) w) as Hk.
    destruct (close_and_return (onDone options) w) as [[| |e] w'];
      cbn [fst snd finish] in *; [now elim Hk|..];
      do 2 eexists; (split; [reflexivity|]); (split; [discriminate|exact Hf]). }
  unfold EventStream. fold (mode_of options). split.
  - cbn [start]. unfold on_chunk. cbn [app].
    rewrite (line_is_not_done p decoded Hline Hp).
    destruct (line_extraction p decoded Hline) as (Hb & _ & Hrest).
    rewrite while_true_S, Hb, Hrest, Hdone'.
    destruct (Hclose {| ctrl := fresh; log := [] |}) as (st & w' & Hfin & Hst & Hf).
    destruct (close_and_return (onDone options) {| ctrl := fresh; log := [] |})
      as [[| |e] w1] eqn:Hcr; cbn [fst snd] in Hfin;
      [now apply close_and_return_stops_any in Hcr|..];
      rewrite Hfin; exists st, w'; auto.
  - cbn [start]. unfold on_chunk at 1. cbn [app].
    rewrite <- (app_nil_r (line p)).
    rewrite (line_is_not_done p [] Hline Hp).
    destruct (line_extraction p [] Hline) as (Hb & Hjs & Hrest).
    rewrite while_true_S, Hb, Hrest, Hjs, Hparse, Hobj.
    change (bufferIsDone []) with false. cbv iota.
    rewrite (on_object_passes _ _ _ v _ Hpass Hobj).
    destruct (send_open (trim p) {| ctrl := fresh; log := [] |} fresh_open)
      as (w1 & -> & Hopen1 & Hlog1).
    rewrite app_nil_r. unfold line at 1. rewrite !length_app.
    cbn [length units list_ascii_of_string map LFLF Nat.add].
    rewrite while_true_S. change (indexOf LFLF []) with (@None nat).
    change (bufferIsDone []) with false. cbv iota.
    unfold on_chunk. cbn [app]. rewrite Hdone'.
    destruct (Hclose w1) as (st & w' & Hfin & Hst & Hf).
    destruct (close_and_return (onDone options) w1)
      as [[| |e] w2] eqn:Hcr; cbn [fst snd] in Hfin;
      [now apply close_and_return_stops_any in Hcr|..];
      rewrite Hfin; exists st, w'; (split; [reflexivity|]);
      (split; [exact Hst|]); rewrite Hf, Hlog1; reflexivity.
Qed.

Lemma event_before_sentinel_in_one_chunk_is_dropped_witness :
  (exists st w,
     EventStream Reference.JSON_parse
       (Chunk (line hello ++ wire "data: [DONE]$$") :: []) hook_only
     = Some (st, w)
     /\ st <> Exhausted /\ frames (log w) = [])
  /\ (exists st w,
        EventStream Reference.JSON_parse
          (Chunk (line hello) :: Chunk (wire "data: [DONE]$$") :: []) hook_only
        = Some (st, w)
        /\ st <> Exhausted /\ frames (log w) = [trim hello]).
Proof.
  apply (event_before_sentinel_in_one_chunk_is_dropped Reference.JSON_parse
           hook_only hello hello_value (wire "data: [DONE]$$") []).
  - apply one_line_check. vm_compute. reflexivity.
  - vm_compute. reflexivity.
  - vm_compute. reflexivity.
  - vm_compute. reflexivity.
  - reflexivity.
  - split; [reflexivity|]. split; [reflexivity|]. right. right.
    eexists. split; [reflexivity|].
    constructor; [|constructor]. split; [reflexivity|intros _; reflexivity].
Defined.



End WellFormedStreams.

(* ================================================================== *)
(** * The event framer: the pace of the consumer *)

Section ConsumerPace.

Import Streams Framer FramerFacts LogFacts FramerRuns TextFacts ChunkFacts
  Samples StreamSamples.

Local Open Scope nat_scope.

Variable JSON_parse : jsstring -> option json.
Variable mode_ : StreamMode.
Variable onDone_ : option DoneHook.

(** What the scan of the choices does is decided by the choices alone. *)
Lemma for_choices_decided (choices : list json) :
  (forall w, for_choices mode_ onDone_ choices w = (Normal, w))
  \/ (forall w, for_choices mode_ onDone_ choices w = close_and_return onDone_ w)
  \/ (exists e, forall w, for_choices mode_ onDone_ choices w = (Throw e, w)).
Proof.
  induction choices as [|choice rest IH]; cbn [for_choices]; [now left|].
  destruct (is_string _ (units "stop")); [right; now left|].
  destruct (_ && _); [right; right; eauto|exact IH].
Qed.

Lemma check_choices_decided (parsed : json) :
  (forall w, check_choices mode_ onDone_ parsed w = (Normal, w))
  \/ (forall w, check_choices mode_ onDone_ parsed w = close_and_return onDone_ w)
  \/ (exists e, forall w, check_choices mode_ onDone_ parsed w = (Throw e, w)).
Proof.
  unfold check_choices. destruct (truthy _); [|now left].
  destruct (prop parsed (units "choices")) as [[]|];
    try (right; right; eauto; fail); [now left|apply for_choices_decided].
Qed.

Lemma check_error_decided (parsed : json) :
  (forall w, check_error parsed w = (Normal, w))
  \/ (exists d, forall w,
        check_error parsed w
        = (Normal, record (AError d) (error (Upstream d) (ctrl w)) w))
  \/ (exists e, forall w, check_error parsed w = (Throw e, w)).
Proof.
  unfold check_error.
  destruct (hasOwnProperty parsed (units "error")) as [e|[|]];
    [right; right; eauto| |now left].
  destruct (prop parsed (units "error")) as [[]|];
    try (right; left; eauto; fail).
  right; right; eauto.
Qed.

Lemma agree_stopped (k : completion) (w1 w2 : world) :
  k <> Normal ->
  frames (log w1) = frames (log w2) ->
  onDone_calls (log w1) = onDone_calls (log w2) ->
  agree (k, w1) (k, w2).
Proof.
  intros Hk Hf Hc. split; [reflexivity|].
  split; [intros Hn; now elim Hk|]. split; assumption.
Qed.

Lemma close_and_return_agree (w1 w2 : world) :
  open w1 -> open w2 -> log w1 = log w2 ->
  agree (close_and_return onDone_ w1) (close_and_return onDone_ w2).
Proof.
  intros Ho1 Ho2 Hlog.
  destruct (close_and_return_open onDone_ w1 Ho1) as (c1 & -> & _).
  destruct (close_and_return_open onDone_ w2 Ho2) as (c2 & -> & _).
  apply agree_stopped; cbn [log].
  - destruct onDone_ as [[e|]|]; discriminate.
  - rewrite !frames_app, Hlog.
    rewrite (frames_terminal (close_part w1)), (frames_terminal (close_part w2));
      [reflexivity|..];
      unfold close_part; destruct (size_truthy _); repeat constructor.
  - rewrite !onDone_calls_app, Hlog.
    rewrite (onDone_calls_closing (close_part w1)),
      (onDone_calls_closing (close_part w2)) by apply closing_close_part.
    reflexivity.
Qed.

Lemma on_object_agree (jsonString : jsstring) (parsed : json) (w1 w2 : world) :
  open w1 -> open w2 -> log w1 = log w2 ->
  agree (on_object mode_ onDone_ jsonString parsed w1)
        (on_object mode_ onDone_ jsonString parsed w2).
Proof.
  intros Ho1 Ho2 Hlog. unfold on_object.
  destruct (check_choices_decided parsed) as [Hc | [Hc | (e & Hc)]];
    rewrite !Hc.
  - destruct (check_error_decided parsed) as [He | [(d & He) | (e & He)]];
      rewrite !He.
    + destruct (send_open jsonString w1 Ho1) as (w1' & -> & Ho1' & Hlog1).
      destruct (send_open jsonString w2 Ho2) as (w2' & -> & Ho2' & Hlog2).
      assert (log w1' = log w2') as Hlog' by congruence.
      split; [reflexivity|]. cbn [fst snd].
      split; [auto|]. now rewrite Hlog'.
    + assert (forall w, open w ->
                send jsonString (record (AError d) (error (Upstream d) (ctrl w)) w)
                = (Throw (TypeError InvalidState),
                   record (AError d) (error (Upstream d) (ctrl w)) w)) as Hsend.
      { intros w [Hs _]. apply send_refused. cbn. unfold error, is_readable.
        now rewrite Hs. }
      rewrite !Hsend by assumption.
      apply agree_stopped; [discriminate|cbn [log record]; now rewrite Hlog..].
    + apply agree_stopped; [discriminate|now rewrite Hlog..].
  - destruct (close_and_return onDone_ w1) as [k1 w1'] eqn:H1.
    destruct (close_and_return onDone_ w2) as [k2 w2'] eqn:H2.
    pose proof (close_and_return_agree w1 w2 Ho1 Ho2 Hlog) as Hagree.
    rewrite H1, H2 in Hagree.
    destruct k1; [now apply close_and_return_stops_any in H1|..];
      destruct k2; try (now apply close_and_return_stops_any in H2);
      exact Hagree.
  - apply agree_stopped; [discriminate|now rewrite Hlog..].
Qed.

Lemma while_true_agree :
  forall fuel buffer w1 w2,
    open w1 -> open w2 -> log w1 = log w2 ->
    length buffer < fuel ->
    exists k w1' w2' buffer',
      while_true JSON_parse mode_ onDone_ fuel buffer w1 = Some (k, w1', buffer')
      /\ while_true JSON_parse mode_ onDone_ fuel buffer w2 = Some (k, w2', buffer')
      /\ agree (k, w1') (k, w2').
Proof.
  induction fuel as [|fuel IH]; intros buffer w1 w2 Ho1 Ho2 Hlog Hfuel; [lia|].
  rewrite !while_true_S.
  assert (forall b : jsstring, exists k w1' w2' b',
            Some (close_and_return onDone_ w1, b) = Some (k, w1', b')
            /\ Some (close_and_return onDone_ w2, b) = Some (k, w2', b')
            /\ agree (k, w1') (k, w2')) as Hclose.
  { intros b. pose proof (close_and_return_agree w1 w2 Ho1 Ho2 Hlog) as Hagree.
    destruct (close_and_return onDone_ w1) as [k1 w1'].
    destruct (close_and_return onDone_ w2) as [k2 w2'].
    assert (k1 = k2) as <- by apply Hagree. exists k1, w1', w2', b. auto. }
  assert (exists k w1' w2' b',
            Some (Normal, w1, buffer) = Some (k, w1', b')
            /\ Some (Normal, w2, buffer) = Some (k, w2', b')
            /\ agree (k, w1') (k, w2')) as Hsame.
  { exists Normal, w1, w2, buffer. unfold agree. cbn [fst snd].
    rewrite Hlog. auto 10. }
  destruct (indexOf LFLF buffer) as [boundary|] eqn:Hb.
  - destruct (bufferIsDone _); [apply Hclose|].
    apply indexOf_bound in Hb. cbn in Hb.
    assert (length (sliceFrom (boundary + 2) buffer) < fuel) as Hfuel'.
    { unfold sliceFrom. rewrite length_skipn. lia. }
    destruct (typeof_object _); [|now apply IH].
    pose proof (on_object_agree (trim (slice 5 boundary buffer))
                  match JSON_parse (trim (slice 5 boundary buffer)) with
                  | Some v => v
                  | None => JNull
                  end w1 w2 Ho1 Ho2 Hlog) as Hagree.
    destruct (on_object _ _ _ _ w1) as [k1 w1'].
    destruct (on_object _ _ _ _ w2) as [k2 w2'].
    assert (k1 = k2) as <- by apply Hagree.
    destruct k1.
    + destruct Hagree as (_ & Hopen & _).
      destruct (Hopen eq_refl) as (Ho1' & Ho2' & Hlog'). cbn [snd] in *.
      apply IH; assumption.
    + do 4 eexists. split; [reflexivity|]. split; [reflexivity|exact Hagree].
    + do 4 eexists. split; [reflexivity|]. split; [reflexivity|exact Hagree].
  - destruct (bufferIsDone buffer); [apply Hclose|apply Hsame].
Qed.

Lemma start_agree (source : list item) :
  forall buffer w1 w2,
    open w1 -> open w2 -> log w1 = log w2 ->
    exists st w1' w2',
      start JSON_parse mode_ onDone_ source buffer w1 = Some (st, w1')
      /\ start JSON_parse mode_ onDone_ (chunks_only source) buffer w2
         = Some (st, w2')
      /\ frames (log w1') = frames (log w2')
      /\ onDone_calls (log w1') = onDone_calls (log w2').
Proof.
  induction source as [|[decoded|] source IH]; intros buffer w1 w2 Ho1 Ho2 Hlog;
    cbn [start chunks_only filter].
  - exists Exhausted, w1, w2. cbn [finish]. rewrite Hlog. auto.
  - fold (chunks_only source).
    assert (exists k w1' w2' b',
              on_chunk JSON_parse mode_ onDone_ buffer decoded w1
              = Some (k, w1', b')
              /\ on_chunk JSON_parse mode_ onDone_ buffer decoded w2
                 = Some (k, w2', b')
              /\ agree (k, w1') (k, w2'))
      as (k & w1' & w2' & b' & -> & -> & Hagree).
    { unfold on_chunk. destruct (bufferIsDone _).
      - pose proof (close_and_return_agree w1 w2 Ho1 Ho2 Hlog) as Hagree.
        destruct (close_and_return onDone_ w1) as [k1 w1'].
        destruct (close_and_return onDone_ w2) as [k2 w2'].
        assert (k1 = k2) as <- by apply Hagree. exists k1, w1', w2'. eauto.
      - apply while_true_agree; auto. }
    destruct Hagree as (_ & Hopen & Hf & Hc). cbn [fst snd] in *.
    destruct k.
    + destruct (Hopen eq_refl) as (Ho1' & Ho2' & Hlog'). apply IH; assumption.
    + do 3 eexists. cbn [finish]. eauto.
    + do 3 eexists. cbn [finish log]. eauto.
  - fold (chunks_only source). apply IH; [now apply read_open|assumption..].
Qed.

End ConsumerPace.

(** X14. The reads of the consumer change neither the frames nor the way
    the run ends nor the calls of the hook: with the reads taken out of the
    course of events, [EventStream] ends alike, with the same frames in
    the same order and as many calls of [onDone]. *)
Theorem reads_do_not_change_the_frames
  (JSON_parse : jsstring -> option json) (stream : list Framer.item)
  (options : Framer.OpenAIStreamOptions) :
  exists st w w',
    Framer.EventStream JSON_parse stream options = Some (st, w)
    /\ Framer.EventStream JSON_parse (FramerRuns.chunks_only stream) options
       = Some (st, w')
    /\ Framer.frames (Framer.log w) = Framer.frames (Framer.log w')
    /\ Framer.onDone_calls (Framer.log w) = Framer.onDone_calls (Framer.log w').
Proof.
  unfold Framer.EventStream. apply start_agree; [apply fresh_open..|reflexivity].
Qed.

(* ================================================================== *)
(** * The event framer: how a stream of events ends *)

Section StreamEndings.

Import Streams Framer FramerFacts LogFacts FramerRuns TextFacts ChunkFacts
  Samples StreamSamples.

Local Open Scope nat_scope.

(** [closeController] after the frames [fs] were queued and none was read. *)
Lemma close_and_return_queued (onDone_ : option DoneHook) (fs : list jsstring) :
  close_and_return onDone_ (queued fs)
  = (match onDone_ with Some (Some e) => Throw e | _ => Return end,
     {| ctrl := closed_after fs; log := closing_log onDone_ fs |}).
Proof.
  assert (open (queued fs)) as Hopen by (split; reflexivity).
  destruct (close_and_return_open onDone_ (queued fs) Hopen) as (c & -> & Hc).
  unfold closing_log, closed_after, close_part in *.
  cbn [queued ctrl log desiredSize state queue size_truthy] in *.
  unfold highWaterMark in *.
  destruct fs as [|f [|f' fs]].
  - cbn in Hc |- *. injection Hc as <-. reflexivity.
  - cbn in Hc |- *. subst c. reflexivity.
  - replace (negb (1 - Z.of_nat (length (f :: f' :: fs)) =? 0)%Z) with true in *
      by (symmetry; apply negb_true_iff, Z.eqb_neq; cbn [length]; lia).
    cbn in Hc |- *. injection Hc as <-. reflexivity.
Qed.

(** A turn of the loop on an event whose choices decide. *)
Lemma first_deciding_choice_rule
  (JSON_parse : jsstring -> option json) (m : StreamMode)
  (onDone_ : option DoneHook) (fuel : nat) (buffer : jsstring)
  (boundary : nat) (w : world) (parsed : json)
  (pre : list json) (choice : json) (post : list json) (v : verdict) :
  indexOf LFLF buffer = Some boundary ->
  bufferIsDone (sliceFrom (boundary + 2) buffer) = false ->
  JSON_parse (trim (slice 5 boundary buffer)) = Some parsed ->
  prop parsed (units "choices") = Some (JArr (pre ++ choice :: post)) ->
  Forall (undecided m) pre ->
  decides m choice v ->
  while_true JSON_parse m onDone_ (S fuel) buffer w
  = Some (verdict_result onDone_ w v, sliceFrom (boundary + 2) buffer).
Proof.
  intros Hb Hdone Hparse Hprop Hpre Hv.
  eapply while_true_choices; eauto.
  - rewrite for_choices_skip by assumption. now apply for_choices_decides.
  - destruct v; [apply close_and_return_stops|discriminate].
Qed.

Section AfterEvents.

Variable JSON_parse : jsstring -> option json.
Variable options : OpenAIStreamOptions.
Variable events : list (jsstring * json).
Variable chunks : list jsstring.

Hypothesis events_well_formed :
  Forall (well_formed JSON_parse (mode_of options)) events.

(** The events in any chunks leave the frames queued and the buffer empty. *)
Lemma feed_events_fresh :
  indexOf DONE (text_of events) = None ->
  concat chunks = text_of events ->
  feed JSON_parse (mode_of options) (onDone options) (map Chunk chunks) []
       {| ctrl := fresh; log := [] |}
  = Some (Normal, queued (frames_of events), []).
Proof.
  intros Hnone Htext.
  rewrite (feed_events JSON_parse (mode_of options) (onDone options) events chunks
             _ fresh_open events_well_formed Hnone Htext).
  cbn [ctrl log app]. now rewrite enqueue_all_ready.
Qed.

(** The events and a text that follows them, in any chunks: the loop goes
    on over that text with the frames queued. *)
Lemma feed_events_then (rest : jsstring) :
  indexOf DONE (text_of events ++ rest) = None ->
  concat chunks = text_of events ++ rest ->
  left (feed JSON_parse (mode_of options) (onDone options) (map Chunk chunks) []
          {| ctrl := fresh; log := [] |})
  = left (while_true JSON_parse (mode_of options) (onDone options)
            (S (length (text_of events ++ rest))) rest
            (queued (frames_of events))).
Proof.
  intros Hnone Htext. apply quiet_without_sentinel in Hnone.
  rewrite (feed_one_piece JSON_parse (mode_of options) (onDone options) chunks []
             {| ctrl := fresh; log := [] |}
             (S (length (text_of events ++ rest))) eq_refl);
    cbn [app]; rewrite Htext; [|exact Hnone|lia].
  rewrite while_true_app by (auto; lia).
  rewrite (while_true_events JSON_parse (mode_of options) (onDone options) events
             _ _ fresh_open events_well_formed).
  - cbn [ctrl log app]. now rewrite enqueue_all_ready.
  - apply (quiet_part [] _ rest). exact Hnone.
  - rewrite length_app. lia.
Qed.

(** After the events, an event whose choices decide, in any chunks, then
    anything: the run ends as the first deciding choice says, on the output
    with the frames queued. *)
Lemma run_to_deciding_event
  (p : jsstring) (members : list (jsstring * json))
  (pre : list json) (choice : json) (post : list json) (v : verdict)
  (rest : jsstring) (more : list item) :
  one_line p ->
  JSON_parse (trim p) = Some (JObj members) ->
  assoc (units "choices") members = Some (JArr (pre ++ choice :: post)) ->
  Forall (undecided (mode_of options)) pre ->
  decides (mode_of options) choice v ->
  indexOf DONE (text_of events ++ line p ++ rest) = None ->
  concat chunks = text_of events ++ line p ++ rest ->
  EventStream JSON_parse (map Chunk chunks ++ more) options
  = Some (finish (fst (verdict_result (onDone options)
                         (queued (frames_of events)) v))
                 (snd (verdict_result (onDone options)
                         (queued (frames_of events)) v))).
Proof.
  intros Hline Hparse Hchoices Hpre Hv Hnone Htext.
  pose proof (feed_events_then (line p ++ rest) Hnone Htext) as Hfeed.
  apply quiet_without_sentinel in Hnone.
  destruct (line_extraction p rest Hline) as (Hb & Hjs & Hrest).
  assert (bufferIsDone rest = false) as Hdone.
  { apply (Hnone (text_of events ++ line p) rest []).
    now rewrite app_nil_r, <- app_assoc. }
  rewrite (first_deciding_choice_rule JSON_parse (mode_of options) (onDone options)
             _ (line p ++ rest) (6 + length p) _ (JObj members) pre choice post v)
    in Hfeed; try assumption;
    [|now rewrite Hrest|now rewrite Hjs].
  assert (fst (verdict_result (onDone options) (queued (frames_of events)) v)
          <> Normal) as Hstop.
  { destruct v; [apply close_and_return_stops|discriminate]. }
  unfold EventStream. fold (mode_of options).
  destruct (verdict_result _ _ v) as [[| |e] w']; [now elim Hstop| |];
    cbn [fst snd finish] in *;
    (apply start_app; [|discriminate]);
    now rewrite start_feed, <- finished_left, Hfeed.
Qed.

End AfterEvents.

End StreamEndings.

Section EndingsOfRuns.

Import Streams Framer FramerFacts LogFacts FramerRuns TextFacts ChunkFacts
  Samples StreamSamples.

Local Open Scope nat_scope.

(** X15. Well-formed events in any chunks, then a chunk that begins with
    [data: [DONE]], with a completion hook that throws: the hook runs after
    the close and the run fails with what it threw. With no read of the
    consumer in between, the output is closed already when no frame was
    queued, and the failure is not seen on it; otherwise the output is
    errored and the frames still queued are discarded. *)
Theorem throwing_onDone_fails_the_run
  (JSON_parse : jsstring -> option json) (options : OpenAIStreamOptions)
  (events : list (jsstring * json)) (chunks : list jsstring)
  (decoded : jsstring) (more : list item) (e : exn) :
  Forall (well_formed JSON_parse (mode_of options)) events ->
  indexOf DONE (text_of events) = None ->
  concat chunks = text_of events ->
  startsWith DONE_EVENT decoded = true ->
  onDone options = Some (Some e) ->
  exists w,
    EventStream JSON_parse (map Chunk chunks ++ Chunk decoded :: more) options
    = Some (Failed e, w)
    /\ log w = map AEnqueue (frames_of events)
               ++ (if length (frames_of events) =? 1 then [] else [AClose])
               ++ [AOnDone]
    /\ queue (ctrl w) = []
    /\ state (ctrl w)
       = (if length (frames_of events) =? 0 then Closed
          else Errored (Raised e)).
Proof.
  intros Hwf Hnone Htext Hdone Hhook. unfold EventStream. rewrite start_feed.
  fold (mode_of options).
  rewrite (feed_app _ _ _ _ _ _ _ _ _
             (feed_events_fresh JSON_parse options events chunks Hwf Hnone Htext)).
  cbn [feed]. unfold on_chunk. cbn [app].
  assert (bufferIsDone decoded = true) as -> by (unfold bufferIsDone; now rewrite Hdone).
  rewrite close_and_return_queued, Hhook. cbn [finished finish ctrl log].
  eexists. split; [reflexivity|].
  unfold closing_log, closed_after. cbn [log ctrl done_part].
  destruct (frames_of events) as [|f [|f' fs]]; cbn; auto.
Qed.

Lemma throwing_onDone_fails_the_run_witness :
  exists w,
    EventStream Reference.JSON_parse
      (map Chunk three_events_chunks ++ Chunk (wire "data: [DONE]$$") :: [])
      hook_throws
    = Some (Failed (Error (units "hook failed")), w)
    /\ log w = map AEnqueue (frames_of three_events)
               ++ (if length (frames_of three_events) =? 1 then [] else [AClose])
               ++ [AOnDone]
    /\ queue (ctrl w) = []
    /\ state (ctrl w)
       = (if length (frames_of three_events) =? 0 then Closed
          else Errored (Raised (Error (units "hook failed")))).
Proof.
  apply (throwing_onDone_fails_the_run Reference.JSON_parse hook_throws
           three_events three_events_chunks (wire "data: [DONE]$$") []).
  - exact three_events_well_formed.
  - vm_compute. reflexivity.
  - vm_compute. reflexivity.
  - vm_compute. reflexivity.
  - reflexivity.
Defined.

(** X16. Well-formed events, then an event whose first deciding choice has
    the finish reason ["stop"], cut into chunks in any way and followed by
    anything but the sentinel: the run completes as it does on the sentinel,
    with the frames of the events before, the close and the hook (one that
    returns); the event with the reason is not framed and what follows it
    is not looked at. *)
Theorem stop_event_completes_the_stream
  (JSON_parse : jsstring -> option json) (options : OpenAIStreamOptions)
  (events : list (jsstring * json)) (chunks : list jsstring)
  (p : jsstring) (members : list (jsstring * json))
  (pre : list json) (choice : json) (post : list json)
  (rest : jsstring) (more : list item) :
  Forall (well_formed JSON_parse (mode_of options)) events ->
  one_line p ->
  JSON_parse (trim p) = Some (JObj members) ->
  assoc (units "choices") members = Some (JArr (pre ++ choice :: post)) ->
  Forall (undecided (mode_of options)) pre ->
  decides (mode_of options) choice Stop ->
  indexOf DONE (text_of events ++ line p ++ rest) = None ->
  concat chunks = text_of events ++ line p ++ rest ->
  (forall e, onDone options <> Some (Some e)) ->
  exists w,
    EventStream JSON_parse (map Chunk chunks ++ more) options
    = Some (Completed, w)
    /\ log w = map AEnqueue (frames_of events)
               ++ (if length (frames_of events) =? 1 then [] else [AClose])
               ++ done_part (onDone options)
    /\ queue (ctrl w) = frames_of events
    /\ state (ctrl w)
       = (if length (frames_of events) =? 0 then Closed else Readable)
    /\ closeRequested (ctrl w) = negb (length (frames_of events) =? 1).
Proof.
  intros Hwf Hline Hparse Hchoices Hpre Hv Hnone Htext Hhook.
  rewrite (run_to_deciding_event JSON_parse options events chunks Hwf
             p members pre choice post Stop rest more); try assumption.
  cbn [verdict_result]. rewrite close_and_return_queued.
  assert (match onDone options with Some (Some e) => Throw e | _ => Return end
          = Return) as ->.
  { destruct (onDone options) as [[e|]|]; [now elim (Hhook e)|reflexivity..]. }
  cbn [fst snd finish]. eexists. split; [reflexivity|].
  unfold closing_log, closed_after. cbn [log ctrl].
  destruct (frames_of events) as [|f [|f' fs]]; cbn; auto.
Qed.

Lemma stop_event_completes_the_stream_witness :
  exists w,
    EventStream Reference.JSON_parse
      (map Chunk (three_events_chunks
                  ++ [wire "data: {'choices':[{'finish_";
                      wire "reason':'stop'}]}$$data: 7$$"]) ++ [])
      hook_only
    = Some (Completed, w)
    /\ log w = map AEnqueue (frames_of three_events)
               ++ (if length (frames_of three_events) =? 1 then [] else [AClose])
               ++ done_part (onDone hook_only)
    /\ queue (ctrl w) = frames_of three_events
    /\ state (ctrl w)
       = (if length (frames_of three_events) =? 0 then Closed else Readable)
    /\ closeRequested (ctrl w) = negb (length (frames_of three_events) =? 1).
Proof.
  apply (stop_event_completes_the_stream Reference.JSON_parse hook_only
           three_events
           (three_events_chunks
            ++ [wire "data: {'choices':[{'finish_";
                wire "reason':'stop'}]}$$data: 7$$"])
           stopped stopped_members []
           (JObj [(finish_reason, JStr (units "stop"))]) []
           (wire "data: 7$$") []).
  - exact three_events_well_formed.
  - apply one_line_check. vm_compute. reflexivity.
  - vm_compute. reflexivity.
  - vm_compute. reflexivity.
  - constructor.
  - vm_compute. reflexivity.
  - vm_compute. reflexivity.
  - vm_compute. reflexivity.
  - intros e H. discriminate H.
Defined.

(** X17. Well-formed events, then an event whose first deciding choice has
    the finish reason ["length"] in token mode, cut into chunks in any way
    and followed by anything but the sentinel: the run fails with the
    MAX_TOKENS error, nothing is closed and no hook runs; the output is
    errored, and with no read of the consumer in between the frames of the
    events before, still queued, are discarded. *)
Theorem length_event_fails_the_stream
  (JSON_parse : jsstring -> option json) (options : OpenAIStreamOptions)
  (events : list (jsstring * json)) (chunks : list jsstring)
  (p : jsstring) (members : list (jsstring * json))
  (pre : list json) (choice : json) (post : list json)
  (rest : jsstring) (more : list item) :
  Forall (well_formed JSON_parse (mode_of options)) events ->
  one_line p ->
  JSON_parse (trim p) = Some (JObj members) ->
  assoc (units "choices") members = Some (JArr (pre ++ choice :: post)) ->
  Forall (undecided (mode_of options)) pre ->
  decides (mode_of options) choice Length ->
  indexOf DONE (text_of events ++ line p ++ rest) = None ->
  concat chunks = text_of events ++ line p ++ rest ->
  EventStream JSON_parse (map Chunk chunks ++ more) options
  = Some (Failed (OpenAIError MAX_TOKENS),
          {| ctrl := {| state := Errored (Raised (OpenAIError MAX_TOKENS));
                        queue := []; closeRequested := false;
                        readRequests := 0 |};
             log := map AEnqueue (frames_of events) |}).
Proof.
  intros Hwf Hline Hparse Hchoices Hpre Hv Hnone Htext.
  rewrite (run_to_deciding_event JSON_parse options events chunks Hwf
             p members pre choice post Length rest more); try assumption.
  reflexivity.
Qed.

Lemma length_event_fails_the_stream_witness :
  EventStream Reference.JSON_parse
    (map Chunk (three_events_chunks
                ++ [wire "data: {'choices':[{'finish_";
                    wire "reason':'length'}]}$$data: 7$$"]) ++ [])
    hook_only
  = Some (Failed (OpenAIError MAX_TOKENS),
          {| ctrl := {| state := Errored (Raised (OpenAIError MAX_TOKENS));
                        queue := []; closeRequested := false;
                        readRequests := 0 |};
             log := map AEnqueue (frames_of three_events) |}).
Proof.
  apply (length_event_fails_the_stream Reference.JSON_parse hook_only
           three_events
           (three_events_chunks
            ++ [wire "data: {'choices':[{'finish_";
                wire "reason':'length'}]}$$data: 7$$"])
           cut_off cut_off_members []
           (JObj [(finish_reason, JStr (units "length"))]) []
           (wire "data: 7$$") []).
  - exact three_events_well_formed.
  - apply one_line_check. vm_compute. reflexivity.
  - vm_compute. reflexivity.
  - vm_compute. reflexivity.
  - constructor.
  - split; vm_compute; reflexivity.
  - vm_compute. reflexivity.
  - vm_compute. reflexivity.
Defined.

End EndingsOfRuns.
